(** * Flash-sale concurrency engine: stock decrement over a shared counter store

    The development embeds [app/inventory_service.py], the request handlers of
    [app/main.py], the client singleton of [app/database.py] and the harness
    of [scripts/attack.py].

    Coroutines are embedded as finite command trees ([prog]): every [await]
    of the source is one [Await] node.  The same definition is then run
    alone ([run], with or without faults of the store link), with foreign
    writes between its suspension points ([run_env]), or interleaved with
    other tasks under an arbitrary scheduler ([run_schedule]). *)

From Stdlib Require Import QArith.
From stdpp Require Import gmap strings list fin_maps pretty.

Open Scope Z_scope.

(** * Part I: the model *)

(** ** The shared counter store *)

(** The store maps keys to integers: a counter key either is absent or holds
    an integer, which is how the engine reads every value it finds
    ([int(stock)], [tonumber(stock)]).  [SET] stores any integer, as large
    as Python's [int] can be; the store's own arithmetic ([DECR]) is signed
    64-bit. *)
Abbreviation store := (gmap string Z).

Definition INT64_MIN : Z := -9223372036854775808.
Definition INT64_MAX : Z := 9223372036854775807.

Definition redis_get (key : string) (s : store) : option Z := s !! key.

Definition redis_set (key : string) (value : Z) (s : store) : store :=
  <[key := value]> s.

(** ** Exceptions and outcomes *)

(** The exceptions of the store client: the first two are connectivity
    faults, the third is the store refusing a command or a script. *)
Inductive redis_error : Type :=
  | ConnectionError
  | TimeoutError
  | ResponseError.

Inductive exn : Type :=
  | RedisError (e : redis_error)
  | HTTPException (status_code : Z) (detail : string).

Inductive outcome (A : Type) : Type :=
  | Returned (a : A)
  | Raised (e : exn).
Arguments Returned {A} a.
Arguments Raised {A} e.

(** [DECR] reads an absent key as 0, stores the value minus one and replies
    with the new value.  It refuses, and leaves the key as it is, a value
    that is not a signed 64-bit integer and a decrement that would leave
    that range. *)
Definition redis_decr (key : string) (s : store) : outcome Z * store :=
  let v := match s !! key with Some v => v | None => 0 end in
  if (INT64_MIN <? v) && (v <=? INT64_MAX)
  then (Returned (v - 1), <[key := v - 1]> s)
  else (Raised (RedisError ResponseError), s).

(** A server-side script receives [KEYS] and runs against the store in one
    indivisible step; it replies with an integer or fails. *)
Definition script : Type := list string → store → outcome Z * store.

(** ** Awaitable commands and coroutines *)

Inductive cmd : Type :=
  | GET (key : string)
  | SET (key : string) (value : Z)
  | EVAL (body : script) (numkeys : nat) (keys : list string)
  | SLEEP (milliseconds : nat).

Definition reply (c : cmd) : Type :=
  match c with
  | GET _ => option Z
  | SET _ _ => bool
  | EVAL _ _ _ => Z
  | SLEEP _ => unit
  end.

(** Only [SLEEP] stays inside the process; the other commands are round
    trips to the store. *)
Definition uses_store (c : cmd) : bool :=
  match c with SLEEP _ => false | _ => true end.

(** What the store does with one command, atomically. *)
Definition handle (c : cmd) (s : store) : outcome (reply c) * store :=
  match c return outcome (reply c) * store with
  | GET key => (Returned (redis_get key s), s)
  | SET key value => (Returned true, redis_set key value s)
  | EVAL body numkeys keys => body (take numkeys keys) s
  | SLEEP _ => (Returned tt, s)
  end.

Inductive prog (A : Type) : Type :=
  | Ret (a : A)
  | Raise (e : exn)
  | Await (c : cmd) (k : reply c → prog A).
Arguments Ret {A} a.
Arguments Raise {A} e.
Arguments Await {A} c k.

Fixpoint bind {A B : Type} (p : prog A) (f : A → prog B) : prog B :=
  match p with
  | Ret a => f a
  | Raise e => Raise e
  | Await c k => Await c (λ x, bind (k x) f)
  end.

Definition await (c : cmd) : prog (reply c) := Await c Ret.

#[global] Instance prog_ret : MRet prog := @Ret.
#[global] Instance prog_bind : MBind prog := λ A B f p, bind p f.

(** Sequential repetition: [n] calls of [p], one after the other. *)
Fixpoint times {A : Type} (n : nat) (p : prog A) : prog unit :=
  match n with
  | O => mret tt
  | S n' => p;; times n' p
  end.

(** ** Sequential execution, with store faults *)

(** The link script says, for each successive round trip to the store,
    whether it fails ([Some e]: the command does not reach the store and [e]
    is raised in the caller) or goes through ([None]).  Past its end every
    round trip goes through. *)
Abbreviation link := (list (option redis_error)).

Fixpoint run {A : Type} (l : link) (p : prog A) (s : store)
  : outcome A * store :=
  match p with
  | Ret a => (Returned a, s)
  | Raise e => (Raised e, s)
  | Await c k =>
      match (if uses_store c then head l else None) with
      | Some (Some e) => (Raised (RedisError e), s)
      | _ =>
          match handle c s with
          | (Returned x, s') => run (if uses_store c then tail l else l) (k x) s'
          | (Raised e, s') => (Raised e, s')
          end
      end
  end.

(** A finer account of a failed round trip.  The client raises its
    connection or timeout error either before the command reached the store
    ([Unsent]) or after the store has applied it, while the reply was on its
    way ([Unanswered]: the socket timeout ran out, or the connection broke,
    with the command already executed).  The caller sees the same exception
    in both cases. *)
Inductive fault : Type :=
  | Unsent (e : redis_error)
  | Unanswered (e : redis_error).

Definition fault_error (f : fault) : redis_error :=
  match f with Unsent e | Unanswered e => e end.

Fixpoint run_faulty {A : Type} (l : list (option fault)) (p : prog A) (s : store)
  : outcome A * store :=
  match p with
  | Ret a => (Returned a, s)
  | Raise e => (Raised e, s)
  | Await c k =>
      match (if uses_store c then head l else None) with
      | Some (Some (Unsent e)) => (Raised (RedisError e), s)
      | Some (Some (Unanswered e)) => (Raised (RedisError e), (handle c s).2)
      | _ =>
          match handle c s with
          | (Returned x, s') =>
              run_faulty (if uses_store c then tail l else l) (k x) s'
          | (Raised e, s') => (Raised e, s')
          end
      end
  end.

(** ** Suspension points and interleaving *)

(** One atomic step of a task: its pending command is handled by the store
    and the task moves to its next suspension point.  A finished task does
    not move. *)
Definition step {A : Type} (p : prog A) (s : store) : prog A * store :=
  match p with
  | Await c k =>
      match handle c s with
      | (Returned x, s') => (k x, s')
      | (Raised e, s') => (Raise e, s')
      end
  | _ => (p, s)
  end.

Definition finished {A : Type} (p : prog A) : bool :=
  match p with Await _ _ => false | _ => true end.

(** A coroutine run alone, except that between two consecutive commands of
    it the rest of the world rewrites the store: [env] lists those rewrites
    in order (none once the list is used up). *)
Fixpoint run_env {A : Type} (env : list (store → store)) (p : prog A)
    (s : store) : outcome A * store :=
  match p with
  | Ret a => (Returned a, s)
  | Raise e => (Raised e, s)
  | Await c k =>
      match handle c s with
      | (Returned x, s') =>
          match k x with
          | Await _ _ =>
              run_env (tail env) (k x)
                (match head env with Some f => f s' | None => s' end)
          | _ => run_env env (k x) s'
          end
      | (Raised e, s') => (Raised e, s')
      end
  end.

(** A pool of tasks over one store.  The scheduler is a list of task
    indices: each entry lets that task take one atomic step (an index out of
    range, or of a finished task, changes nothing).  *)
Definition step_task {A : Type} (cfg : store * list (prog A)) (i : nat)
  : store * list (prog A) :=
  match cfg.2 !! i with
  | Some p => let '(p', s') := step p cfg.1 in (s', <[i := p']> cfg.2)
  | None => cfg
  end.

Definition run_schedule {A : Type} (sched : list nat)
    (cfg : store * list (prog A)) : store * list (prog A) :=
  foldl step_task cfg sched.

Definition all_finished {A : Type} (pool : list (prog A)) : bool :=
  forallb finished pool.

Definition result {A : Type} (p : prog A) : option (outcome A) :=
  match p with
  | Ret a => Some (Returned a)
  | Raise e => Some (Raised e)
  | Await _ _ => None
  end.

(** [asyncio.gather]: the tasks' outcomes in task order, available once
    every task of the pool is finished. *)
Definition gather {A : Type} (pool : list (prog A)) : option (list (outcome A)) :=
  mapM result pool.

(** ** Stock decrement engine ([app/inventory_service.py]) *)

Module InventoryService.

Definition STOCK_KEY : string := "product_stock".

Definition purchase_item_unsafe : prog bool :=
  stock ← await (GET STOCK_KEY);
  let stock := match stock with Some v => v | None => 0 end in
  if 0 <? stock then
    (await (SLEEP 50);;
     await (SET STOCK_KEY (stock - 1));;
     mret true)
  else mret false.

Definition lua_script : script := λ KEYS s,
  match KEYS !! 0%nat with
  | None => (Raised (RedisError ResponseError), s)
  | Some key =>
      let stock := redis_get key s in
      match stock with
      | Some n =>
          if 0 <? n then
            match redis_decr key s with
            | (Returned _, s') => (Returned 1, s')
            | (Raised e, s') => (Raised e, s')
            end
          else (Returned 0, s)
      | None => (Returned 0, s)
      end
  end.

Definition purchase_item_safe : prog bool :=
  result ← await (EVAL lua_script 1 [STOCK_KEY]);
  mret (negb (result =? 0)).

Definition reset_stock (amount : Z) : prog unit :=
  await (SET STOCK_KEY amount);;
  mret tt.

Definition get_stock : prog Z :=
  stock ← await (GET STOCK_KEY);
  mret (match stock with Some v => v | None => 0 end).

End InventoryService.

(** ** Store client singleton ([app/database.py]) *)

Module Database.

(** The arguments the client is constructed with (timeouts in seconds). *)
Record Redis : Type := {
  host : string;
  port : Z;
  decode_responses : bool;
  max_connections : Z;
  socket_timeout : Q;
  socket_connect_timeout : Q }.

(** A client object: its configuration, and whether its pool was closed. *)
Record client : Type := { config : Redis; closed : bool }.

(** The process as the module sees it: the client objects created so far
    (an object's identity is its position in the list) and the class
    attribute [_instance], a reference to one of them or [None]. *)
Record process : Type := { objects : list client; _instance : option nat }.

(** What [get_instance] hands back: a reference to a client, or the
    [ValueError] of [int] on a port that is not a number. *)
Inductive started : Type :=
  | Client (id : nat)
  | ValueError.

Module RedisClient.
Section with_int.

(** Python's [int] on a string: the number it denotes, if any. *)
Variable int : string → option Z.

(** [environ] is the environment at the time of the call. *)
Definition get_instance (environ : gmap string string) (w : process)
  : started * process :=
  match _instance w with
  | None =>
      let host := match environ !! "REDIS_HOST"%string with
                  | Some text => text
                  | None => "localhost"%string
                  end in
      match (match environ !! "REDIS_PORT"%string with
             | Some text => int text
             | None => Some 6379
             end) with
      | Some port =>
          let c := {| config := {| host := host;
                                   port := port;
                                   decode_responses := true;
                                   max_connections := 100;
                                   socket_timeout := 5;
                                   socket_connect_timeout := 5 |};
                      closed := false |} in
          (Client (length (objects w)),
           {| objects := objects w ++ [c];
              _instance := Some (length (objects w)) |})
      | None => (ValueError, w)
      end
  | Some id => (Client id, w)
  end.

Definition close (w : process) : process :=
  match _instance w with
  | Some id =>
      {| objects := alter (λ c, {| config := config c; closed := true |}) id
                      (objects w);
         _instance := None |}
  | None => w
  end.

End with_int.
End RedisClient.

Definition get_redis := RedisClient.get_instance.

(** A process in which the module has not run yet. *)
Definition fresh : process := {| objects := []; _instance := None |}.

(** The calls a process makes into the module, in order. *)
Inductive call : Type :=
  | GetRedis (environ : gmap string string)
  | Close.

Definition do_call (int : string → option Z) (w : process) (c : call) : process :=
  match c with
  | GetRedis environ => (get_redis int environ w).2
  | Close => RedisClient.close w
  end.

Definition do_calls (int : string → option Z) (calls : list call) (w : process)
  : process :=
  foldl (do_call int) w calls.

End Database.

(** ** Service boundary ([app/main.py]) *)

Inductive json : Type :=
  | JBool (b : bool)
  | JInt (n : Z)
  | JStr (s : string).

(** A JSON object, as the handlers return it and the harness reads it. *)
Abbreviation body := (gmap string json).

(** The web framework's part: the body a handler returns is sent with
    status 200, an [HTTPException] with its own status code, and any other
    exception that leaves the handler is answered with 500. *)
Definition http_status {A : Type} (o : outcome A) : Z :=
  match o with
  | Returned _ => 200
  | Raised (HTTPException status_code _) => status_code
  | Raised _ => 500
  end.

Module Main.

(** [lifespan]: the application serves its requests, each of which resolves
    [get_redis] in the environment of its time, and on shutdown closes the
    client. *)
Definition lifespan (int : string → option Z)
    (requests : list (gmap string string)) (w : Database.process)
  : list Database.started * Database.process :=
  let served :=
    foldl (λ acc environ,
             let '(r, w') := Database.get_redis int environ acc.2 in
             (acc.1 ++ [r], w'))
          ([], w) requests in
  (served.1, Database.RedisClient.close served.2).

Definition health_check : prog body :=
  mret {["status"%string := JStr "healthy"]}.

Definition get_stock : prog body :=
  stock ← InventoryService.get_stock;
  mret {["current_stock"%string := JInt stock]}.

Definition reset_stock (amount : Z) : prog body :=
  InventoryService.reset_stock amount;;
  mret {["message"%string := JStr ("Stock reset to " +:+ pretty amount);
         "new_stock"%string := JInt amount]}.

Definition purchase_unsafe : prog body :=
  success ← InventoryService.purchase_item_unsafe;
  if negb success then Raise (HTTPException 400 "Out of stock")
  else mret {["success"%string := JBool true; "method"%string := JStr "unsafe"]}.

Definition purchase_safe : prog body :=
  success ← InventoryService.purchase_item_safe;
  if negb success then Raise (HTTPException 400 "Out of stock")
  else mret {["success"%string := JBool true; "method"%string := JStr "safe"]}.

(** [POST /purchase/{endpoint}] for the two names the harness posts to,
    ["unsafe"] and ["safe"].  What the framework does with other paths
    (it redirects a trailing slash, for one) is not modelled: every other
    name stands for a path without a handler. *)
Definition purchase (endpoint : string) : prog body :=
  if String.eqb endpoint "unsafe" then purchase_unsafe
  else if String.eqb endpoint "safe" then purchase_safe
  else Raise (HTTPException 404 "Not Found").

End Main.

(** ** Verification harness ([scripts/attack.py]) *)

(** What [session.post] gives an attempt: a response with its status, or an
    exception of the HTTP client. *)
Inductive post_result : Type :=
  | Response (status : Z)
  | ClientException.

Module Attack.

Definition CONCURRENT_USERS : nat := 500.
Definition INITIAL_STOCK : Z := 50.

Definition make_purchase (post : post_result) : Z :=
  match post with
  | Response status => status
  | ClientException => 500
  end.

(** [run_attack] as a function of what the network handed to the harness:
    the outcome of each of the concurrent posts, the [current_stock] of the
    final query and the measured duration (carried through as it is). *)
Definition run_attack {T : Type} (posts : list post_result)
    (current_stock : Z) (duration : T) : nat * Z * T :=
  let results := make_purchase <$> posts in
  let final_stock := current_stock in
  let successful := length (filter (λ r, r = 200) results) in
  (successful, final_stock, duration).

(** The harness against the service of [app/main.py] over one store, with a
    reliable network and a reliable store: the reset request, then
    [CONCURRENT_USERS] posts whose handlers the scheduler interleaves, the
    final stock query once all posts are answered, and the aggregation.
    [None] when the schedule leaves a post unanswered. *)
Definition attack (endpoint : string) (sched : list nat) (s : store)
  : option (nat * Z * unit) :=
  let s := (run [] (Main.reset_stock INITIAL_STOCK) s).2 in
  let cfg := run_schedule sched (s, replicate CONCURRENT_USERS (Main.purchase endpoint)) in
  outcomes ← gather cfg.2;
  let posts := (λ o, Response (http_status o)) <$> outcomes in
  match (run [] Main.get_stock cfg.1).1 with
  | Returned data =>
      match data !! "current_stock"%string with
      | Some (JInt current_stock) => Some (run_attack posts current_stock ())
      | _ => None
      end
  | Raised _ => None
  end.




End Attack.

(** ** Vocabulary of the statements *)

Import InventoryService.

(** The stock as every reader of the engine sees it: absent reads as 0. *)
Definition level (s : store) : Z :=
  match s !! STOCK_KEY with Some v => v | None => 0 end.

Definition succeeded (p : prog bool) : bool :=
  match p with Ret true => true | _ => false end.

Definition successful_count (pool : list (prog bool)) : nat :=
  length (filter (λ p, succeeded p = true) pool).

Definition finished_count {A : Type} (pool : list (prog A)) : nat :=
  length (filter (λ p, finished p = true) pool).

Definition task_finished {A : Type} (pool : list (prog A)) (i : nat) : Prop :=
  ∃ p, pool !! i = Some p ∧ finished p = true.

(** A task of a pool of safe purchases has not started or has returned. *)
Definition fresh_or_done (p : prog bool) : Prop :=
  p = purchase_item_safe ∨ ∃ b, p = Ret b.

(** What every interleaving of safe purchases keeps true, for the stock
    [initial] the pool started from: the successes are the first [initial]
    of the purchases that have run, and each of them took one unit. *)
Definition safe_pool_inv (initial : Z) (cfg : store * list (prog bool)) : Prop :=
  Forall fresh_or_done cfg.2 ∧
  Z.of_nat (successful_count cfg.2)
    = Z.min (Z.of_nat (finished_count cfg.2)) initial ∧
  level cfg.1 = initial - Z.of_nat (successful_count cfg.2).

(** What a purchase endpoint makes of what its engine call did: the same
    store; the out-of-stock exception, a client error, exactly for [False];
    the success body, sent with 200, exactly for [True]; and an exception of
    the engine passed on as it is, which the framework answers with 500. *)
Definition translates (method : string) (engine : outcome bool * store)
    (handler : outcome body * store) : Prop :=
  handler.2 = engine.2 ∧
  (engine.1 = Returned false ↔
     handler.1 = Raised (HTTPException 400 "Out of stock")) ∧
  (engine.1 = Returned false ↔ 400 ≤ http_status handler.1 < 500) ∧
  (engine.1 = Returned true ↔
     handler.1 = Returned {["success"%string := JBool true;
                            "method"%string := JStr method]}) ∧
  (engine.1 = Returned true ↔ http_status handler.1 = 200) ∧
  (∀ e, engine.1 = Raised e →
     handler.1 = Raised e ∧ http_status handler.1 = 500).

(** The attempts of a run that ended in the error status. *)
Definition errored (posts : list post_result) : nat :=
  length (filter (λ r, r = 500) (Attack.make_purchase <$> posts)).

(** Errors would be tracked separately if the result of a run told how many
    of its attempts failed. *)
Definition tracks_errors_separately : Prop :=
  ∃ errors : nat * Z * () → nat,
    ∀ posts current_stock,
      errors (Attack.run_attack posts current_stock ()) = errored posts.

(** The suspension points of [purchase_item_unsafe]: not started; past the
    check with the value it read, before the sleep; past the sleep, before
    the write; returned. *)
Inductive unsafe_task : Type :=
  | Fresh
  | Sleeping (stock : Z)
  | Writing (stock : Z)
  | Done (success : bool).

(** The rest of the coroutine at each suspension point. *)
Definition resume (t : unsafe_task) : prog bool :=
  match t with
  | Fresh => purchase_item_unsafe
  | Sleeping stock =>
      await (SLEEP 50);; await (SET STOCK_KEY (stock - 1));; mret true
  | Writing stock => await (SET STOCK_KEY (stock - 1));; mret true
  | Done success => Ret success
  end.

(** Past the check, whether written yet or not. *)
Definition passed (t : unsafe_task) : bool :=
  match t with Sleeping _ | Writing _ | Done true => true | _ => false end.

Definition sold (t : unsafe_task) : bool :=
  match t with Done true => true | _ => false end.

Definition refused (t : unsafe_task) : bool :=
  match t with Done false => true | _ => false end.

Definition in_flight (t : unsafe_task) : option Z :=
  match t with Sleeping v | Writing v => Some v | _ => None end.

(** The turns a task still needs at most. *)
Definition turns_left (t : unsafe_task) : nat :=
  match t with Fresh => 3 | Sleeping _ => 2 | Writing _ => 1 | Done _ => 0 end.

Definition count {A : Type} (f : A → bool) (l : list A) : nat :=
  length (filter (λ x, f x = true) l).

(** One turn of an unsafe purchase, on its suspension points: the image of
    [step] (see [step_resume]). *)
Definition unsafe_step (t : unsafe_task) (s : store) : unsafe_task * store :=
  match t with
  | Fresh => if 0 <? level s then (Sleeping (level s), s) else (Done false, s)
  | Sleeping stock => (Writing stock, s)
  | Writing stock => (Done true, <[STOCK_KEY := stock - 1]> s)
  | Done success => (Done success, s)
  end.

Definition unsafe_step_task (cfg : store * list unsafe_task) (i : nat)
  : store * list unsafe_task :=
  match cfg.2 !! i with
  | Some t => let '(t', s') := unsafe_step t cfg.1 in (s', <[i := t']> cfg.2)
  | None => cfg
  end.

Definition unsafe_run (sched : list nat) (cfg : store * list unsafe_task)
  : store * list unsafe_task :=
  foldl unsafe_step_task cfg sched.

(** What every interleaving of unsafe purchases keeps true, for the stock
    [initial] the pool started from: the stock stays between 0 and
    [initial]; every unit missing from it was taken by a purchase that
    passed the check; a purchase in flight read a value that as many had
    passed for; a purchase was refused only after [initial] had passed; and
    the stock is below [initial] once one has written. *)
Definition unsafe_pool_inv (initial : Z) (s : store) (ts : list unsafe_task) : Prop :=
  0 ≤ level s ≤ initial ∧
  initial - level s ≤ Z.of_nat (count passed ts) ∧
  Forall (λ t, ∀ v, in_flight t = Some v →
                 1 ≤ v ≤ initial ∧ initial - v + 1 ≤ Z.of_nat (count passed ts)) ts ∧
  ((0 < count refused ts)%nat → initial ≤ Z.of_nat (count passed ts)) ∧
  ((0 < count sold ts)%nat → level s ≤ initial - 1).

(** A process is well formed when [_instance] refers to a client that
    exists, and a client is open exactly when it is the one referred to. *)
Definition well_formed (w : Database.process) : Prop :=
  (∀ id, Database._instance w = Some id →
         (id < length (Database.objects w))%nat) ∧
  (∀ id c, Database.objects w !! id = Some c →
           (Database.closed c = false ↔ Database._instance w = Some id)).

(** A task of a pool without stock: a purchase of either kind that has not
    started, or one that was refused. *)
Definition idle (p : prog bool) : Prop :=
  p = purchase_item_safe ∨ p = purchase_item_unsafe ∨ p = Ret false.

(** * Part II: properties *)

#[local] Arguments STOCK_KEY : simpl never.
#[local] Arguments lua_script : simpl never.

(** ** Sequential execution *)

Section run_facts.
Context {A B : Type}.
Implicit Types (p : prog A) (f : A → prog B) (s : store) (l : link).

Lemma run_bind_nil p f s :
  run [] (p ≫= f) s =
  match run [] p s with
  | (Returned a, s') => run [] (f a) s'
  | (Raised e, s') => (Raised e, s')
  end.
Proof.
  revert s. induction p as [a|e|c k IH]; intros s; simpl; try done.
  destruct (uses_store c); simpl;
    destruct (handle c s) as [[x|e] s']; simpl; auto; apply IH.
Qed.

(** When what follows [p] does not suspend any more, faults can only hit
    [p] itself. *)
Lemma run_bind_finished l p f s :
  (∀ a, finished (f a) = true) →
  run l (p ≫= f) s =
  match run l p s with
  | (Returned a, s') => run [] (f a) s'
  | (Raised e, s') => (Raised e, s')
  end.
Proof.
  intros Hf. revert l s. induction p as [a|e|c k IH]; intros l s; simpl; try done.
  - specialize (Hf a). by destruct (f a).
  - destruct (uses_store c); [destruct (head l) as [[e|]|]|]; simpl; try done;
      destruct (handle c s) as [[x|e] s']; simpl; auto; apply IH.
Qed.
End run_facts.

Lemma run_get_stock (s : store) :
  run [] get_stock s = (Returned (level s), s).
Proof. reflexivity. Qed.

Lemma run_reset_stock (a : Z) (s : store) :
  run [] (reset_stock a) s = (Returned tt, <[STOCK_KEY := a]> s).
Proof. reflexivity. Qed.

(** Where the script gets to [DECR] the value is positive, so all that can
    make it refuse is a value above the 64-bit range. *)
Lemma lua_script_stock_key (s : store) :
  lua_script [STOCK_KEY] s =
  if 0 <? level s then
    if level s <=? INT64_MAX
    then (Returned 1, <[STOCK_KEY := level s - 1]> s)
    else (Raised (RedisError ResponseError), s)
  else (Returned 0, s).
Proof.
  unfold level, lua_script, redis_get, redis_decr. cbn [lookup list_lookup].
  destruct (s !! STOCK_KEY) as [v|] eqn:Hv; [|done].
  destruct (Z.ltb_spec 0 v); [|done].
  destruct (Z.ltb_spec INT64_MIN v); [|unfold INT64_MIN in *; lia].
  by destruct (v <=? INT64_MAX).
Qed.

Lemma run_purchase_item_safe (s : store) :
  run [] purchase_item_safe s =
  if 0 <? level s then
    if level s <=? INT64_MAX
    then (Returned true, <[STOCK_KEY := level s - 1]> s)
    else (Raised (RedisError ResponseError), s)
  else (Returned false, s).
Proof.
  cbn. rewrite lua_script_stock_key.
  destruct (0 <? level s); [|done]. by destruct (level s <=? INT64_MAX).
Qed.

Lemma run_purchase_item_unsafe (s : store) :
  run [] purchase_item_unsafe s =
  if 0 <? level s then (Returned true, <[STOCK_KEY := level s - 1]> s)
  else (Returned false, s).
Proof.
  unfold level. cbn. unfold redis_get.
  destruct (s !! STOCK_KEY) as [v|] eqn:Hv; [|done].
  by destruct (0 <? v).
Qed.

Lemma level_insert (v : Z) (s : store) : level (<[STOCK_KEY := v]> s) = v.
Proof. unfold level. by rewrite lookup_insert_eq. Qed.

Lemma level_absent (s : store) : s !! STOCK_KEY = None → level s = 0.
Proof. unfold level. by intros ->. Qed.

Lemma level_present (s : store) (v : Z) : s !! STOCK_KEY = Some v → level s = v.
Proof. unfold level. by intros ->. Qed.

Lemma run_env_nil {A : Type} (p : prog A) (s : store) :
  run_env [] p s = run [] p s.
Proof.
  revert s. induction p as [a|e|c k IH]; intros s; simpl; try done.
  replace (if uses_store c then [] else []) with (@nil (option redis_error))
    by by destruct (uses_store c).
  destruct (uses_store c); simpl;
    destruct (handle c s) as [[x|e] s']; try done;
    rewrite <- IH; by destruct (k x).
Qed.

Lemma run_times_reset_stock (n : nat) (v : Z) (s : store) :
  run [] (times n (reset_stock v)) (<[STOCK_KEY := v]> s)
  = (Returned tt, <[STOCK_KEY := v]> s).
Proof.
  induction n as [|n IH]; [done|].
  cbn [times]. rewrite run_bind_nil, run_reset_stock, insert_insert_eq. apply IH.
Qed.

Lemma run_times_S {A : Type} (n : nat) (p : prog A) (s : store) :
  run [] (times (S n) p) s =
  match run [] p s with
  | (Returned _, s') => run [] (times n p) s'
  | (Raised e, s') => (Raised e, s')
  end.
Proof. apply run_bind_nil. Qed.

(** Within the 64-bit range [n] safe purchases in a row all return, and
    take the stock down to zero at most. *)
Lemma run_times_purchase_item_safe (n : nat) (s : store) :
  0 ≤ level s → level s ≤ INT64_MAX →
  ∃ s', run [] (times n purchase_item_safe) s = (Returned tt, s') ∧
        level s' = Z.max (level s - Z.of_nat n) 0.
Proof.
  revert s. induction n as [|n IH]; intros s Hs Hmax.
  - exists s. split; [done|lia].
  - rewrite run_times_S, run_purchase_item_safe.
    destruct (Z.ltb_spec 0 (level s)) as [Hpos|Hzero].
    + destruct (Z.leb_spec (level s) INT64_MAX); [|lia].
      destruct (IH (<[STOCK_KEY := level s - 1]> s)) as (s' & -> & Hs').
      { rewrite level_insert. lia. }
      { rewrite level_insert. lia. }
      exists s'. split; [done|]. rewrite Hs', level_insert. lia.
    + destruct (IH s Hs Hmax) as (s' & -> & Hs').
      exists s'. split; [done|]. lia.
Qed.

(** In or out of that range, they never leave a negative stock behind. *)
Lemma run_times_purchase_item_safe_nonnegative (n : nat) (s : store) :
  0 ≤ level s → 0 ≤ level (run [] (times n purchase_item_safe) s).2.
Proof.
  revert s. induction n as [|n IH]; intros s Hs; [done|].
  rewrite run_times_S, run_purchase_item_safe.
  destruct (Z.ltb_spec 0 (level s)) as [Hpos|Hzero]; [|by apply IH].
  destruct (level s <=? INT64_MAX); [|done].
  apply IH. rewrite level_insert. lia.
Qed.

(** ** The engine, one call at a time *)

(** C6 — [get_stock] returns 0 when the counter key is absent and the stored
    integer otherwise, and whatever the link does it leaves the store as it
    found it. *)
Theorem get_stock_reads_without_effect (s : store) :
  (s !! STOCK_KEY = None → run [] get_stock s = (Returned 0, s)) ∧
  (∀ v, s !! STOCK_KEY = Some v → run [] get_stock s = (Returned v, s)) ∧
  (∀ l, (run l get_stock s).2 = s).
Proof.
  split_and!.
  - intros H. by rewrite run_get_stock, (level_absent _ H).
  - intros v H. by rewrite run_get_stock, (level_present _ _ H).
  - intros [|[e|] l]; reflexivity.
Qed.

Lemma get_stock_reads_without_effect_witness :
  run [] get_stock ∅ = (Returned 0, ∅) ∧
  run [] get_stock (<[STOCK_KEY := 7]> ∅) = (Returned 7, <[STOCK_KEY := 7]> ∅).
Proof.
  split.
  - apply (proj1 (get_stock_reads_without_effect ∅)). reflexivity.
  - apply (proj1 (proj2 (get_stock_reads_without_effect (<[STOCK_KEY := 7]> ∅)))).
    reflexivity.
Defined.

(** C2, as stated, does not hold for every store state.  On a counter of
    2^63, which [reset_stock] stores without a question, the script's
    [DECR] is refused: the call returns neither true nor false but raises,
    and nothing is decremented. *)
Lemma purchase_item_safe_raises_beyond_int64 :
  (<[STOCK_KEY := 9223372036854775808]> ∅ : store) !! STOCK_KEY
    = Some 9223372036854775808 ∧
  0 < 9223372036854775808 ∧
  run [] purchase_item_safe (<[STOCK_KEY := 9223372036854775808]> ∅)
    = (Raised (RedisError ResponseError), <[STOCK_KEY := 9223372036854775808]> ∅) ∧
  (run [] purchase_item_safe (<[STOCK_KEY := 9223372036854775808]> ∅)).1
    ≠ Returned true.
Proof. split_and!; [reflexivity|lia|reflexivity|discriminate]. Qed.

(** C2, amended — a single [purchase_item_safe] returns true exactly when the
    counter key is present with a value greater than zero and within the
    signed 64-bit range; it then stores that value minus one.  It returns
    false, and leaves the store unchanged, when the key is absent or its
    value is not above zero.  On a value above the range it raises and
    leaves the store unchanged.  After a reset to 20 and five purchases in a
    row [get_stock] returns 15. *)
Theorem purchase_item_safe_single_call (s : store) :
  (∀ v, s !! STOCK_KEY = Some v → 0 < v → v ≤ INT64_MAX →
     run [] purchase_item_safe s = (Returned true, <[STOCK_KEY := v - 1]> s)) ∧
  (∀ v, s !! STOCK_KEY = Some v → v ≤ 0 →
     run [] purchase_item_safe s = (Returned false, s)) ∧
  (s !! STOCK_KEY = None → run [] purchase_item_safe s = (Returned false, s)) ∧
  (∀ v, s !! STOCK_KEY = Some v → INT64_MAX < v →
     run [] purchase_item_safe s = (Raised (RedisError ResponseError), s)) ∧
  ((run [] purchase_item_safe s).1 = Returned true ↔
     ∃ v, s !! STOCK_KEY = Some v ∧ 0 < v ≤ INT64_MAX) ∧
  (run [] (reset_stock 20;; times 5 purchase_item_safe;; get_stock) s).1
    = Returned 15.
Proof.
  split_and!.
  - intros v H Hv Hmax. rewrite run_purchase_item_safe, (level_present _ _ H).
    destruct (Z.ltb_spec 0 v); [|lia]. by destruct (Z.leb_spec v INT64_MAX); [|lia].
  - intros v H Hv. rewrite run_purchase_item_safe, (level_present _ _ H).
    by destruct (Z.ltb_spec 0 v); [lia|].
  - intros H. by rewrite run_purchase_item_safe, (level_absent _ H).
  - intros v H Hv. rewrite run_purchase_item_safe, (level_present _ _ H).
    destruct (Z.ltb_spec 0 v); [|unfold INT64_MAX in *; lia].
    by destruct (Z.leb_spec v INT64_MAX); [lia|].
  - rewrite run_purchase_item_safe. unfold level.
    destruct (s !! STOCK_KEY) as [v|];
      [destruct (Z.ltb_spec 0 v); [destruct (Z.leb_spec v INT64_MAX)|]|]; simpl.
    + split; [eauto|done].
    + split; [done|]. intros (w & [= <-] & ?). lia.
    + split; [done|]. intros (w & [= <-] & ?). lia.
    + split; [done|]. by intros (w & [=] & ?).
  - rewrite run_bind_nil, run_reset_stock, run_bind_nil.
    destruct (run_times_purchase_item_safe 5 (<[STOCK_KEY := 20]> s))
      as (s' & -> & Hs'); rewrite level_insert in *; [lia|by vm_compute|].
    by rewrite run_get_stock, Hs'.
Qed.

Lemma purchase_item_safe_single_call_witness :
  run [] purchase_item_safe (<[STOCK_KEY := 3]> ∅)
    = (Returned true, <[STOCK_KEY := 3 - 1]> (<[STOCK_KEY := 3]> ∅)) ∧
  run [] purchase_item_safe (<[STOCK_KEY := 0]> ∅)
    = (Returned false, <[STOCK_KEY := 0]> ∅) ∧
  run [] purchase_item_safe ∅ = (Returned false, ∅).
Proof.
  split_and!.
  - destruct (purchase_item_safe_single_call (<[STOCK_KEY := 3]> ∅)) as [H _].
    apply H; [reflexivity|lia|by vm_compute].
  - destruct (purchase_item_safe_single_call (<[STOCK_KEY := 0]> ∅)) as (_ & H & _).
    apply H with 0; [reflexivity|lia].
  - destruct (purchase_item_safe_single_call ∅) as (_ & _ & H & _).
    apply H. reflexivity.
Defined.

(** C9, as stated, does not hold for a key holding any integer.  On a
    counter of 2^63 the unsafe method returns true and writes 2^63 - 1,
    while the safe method raises and writes nothing. *)
Lemma purchase_item_unsafe_safe_differ_beyond_int64 :
  run [] purchase_item_unsafe (<[STOCK_KEY := 9223372036854775808]> ∅)
    = (Returned true,
       <[STOCK_KEY := 9223372036854775807]> (<[STOCK_KEY := 9223372036854775808]> ∅)) ∧
  run [] purchase_item_safe (<[STOCK_KEY := 9223372036854775808]> ∅)
    = (Raised (RedisError ResponseError), <[STOCK_KEY := 9223372036854775808]> ∅).
Proof. split; reflexivity. Qed.

(** C9, amended — run one call at a time, the two purchase methods cannot be
    told apart on any store whose counter key is absent or holds an integer
    of at most 2^63 - 1: they return the same boolean and leave the same
    store. *)
Theorem purchase_item_unsafe_safe_agree_sequentially (s : store) :
  (∀ v, s !! STOCK_KEY = Some v → v ≤ INT64_MAX) →
  run [] purchase_item_unsafe s = run [] purchase_item_safe s.
Proof.
  intros Hmax. rewrite run_purchase_item_unsafe, run_purchase_item_safe.
  destruct (0 <? level s); [|done].
  destruct (Z.leb_spec (level s) INT64_MAX) as [|Hover]; [done|].
  unfold level in Hover. destruct (s !! STOCK_KEY) as [v|]; [|done].
  specialize (Hmax v eq_refl). lia.
Qed.

Lemma purchase_item_unsafe_safe_agree_sequentially_witness :
  run [] purchase_item_unsafe (<[STOCK_KEY := 9223372036854775807]> ∅)
  = run [] purchase_item_safe (<[STOCK_KEY := 9223372036854775807]> ∅).
Proof.
  apply (purchase_item_unsafe_safe_agree_sequentially
           (<[STOCK_KEY := 9223372036854775807]> ∅)).
  intros v. rewrite lookup_insert_eq. intros [= <-]. by vm_compute.
Defined.

(** C3 — [purchase_item_unsafe] returns true exactly when the value it reads
    at entry (absent read as 0) is greater than zero.  It then writes that
    value minus one, whatever the rest of the world ([f] after the read, [g]
    during the sleep) has stored in the meantime; when it returns false it
    has written nothing. *)
Theorem purchase_item_unsafe_writes_read_value (s : store) (f g : store → store) :
  (0 < level s →
     run_env [f; g] purchase_item_unsafe s
       = (Returned true, <[STOCK_KEY := level s - 1]> (g (f s))) ∧
     run [] purchase_item_unsafe s
       = (Returned true, <[STOCK_KEY := level s - 1]> s)) ∧
  (level s ≤ 0 →
     run_env [f; g] purchase_item_unsafe s = (Returned false, s) ∧
     run [] purchase_item_unsafe s = (Returned false, s)).
Proof.
  rewrite run_purchase_item_unsafe. unfold level. cbn. unfold redis_get.
  destruct (s !! STOCK_KEY) as [v|]; [destruct (Z.ltb_spec 0 v)|];
    split; intros ?; try lia; done.
Qed.

Lemma purchase_item_unsafe_writes_read_value_witness :
  run_env [λ s, <[STOCK_KEY := 100]> s; λ s, s] purchase_item_unsafe
    (<[STOCK_KEY := 5]> ∅)
  = (Returned true, <[STOCK_KEY := 4]> (<[STOCK_KEY := 100]> (<[STOCK_KEY := 5]> ∅))) ∧
  run_env [λ s, <[STOCK_KEY := 100]> s; λ s, s] purchase_item_unsafe
    (<[STOCK_KEY := 0]> ∅)
  = (Returned false, <[STOCK_KEY := 0]> ∅).
Proof.
  split.
  - destruct (purchase_item_unsafe_writes_read_value (<[STOCK_KEY := 5]> ∅)
                (λ s, <[STOCK_KEY := 100]> s) (λ s, s)) as [H _].
    apply H. reflexivity.
  - destruct (purchase_item_unsafe_writes_read_value (<[STOCK_KEY := 0]> ∅)
                (λ s, <[STOCK_KEY := 100]> s) (λ s, s)) as [_ H].
    apply H. vm_compute. discriminate.
Defined.

(** C5 — for a non-negative [v], resetting to [v] once or more in a row, from
    any store, leaves exactly what one reset leaves, and [get_stock] right
    after returns [v]. *)
Theorem reset_stock_idempotent (v : Z) (s : store) (m : nat) :
  0 ≤ v →
  run [] (times (S m) (reset_stock v)) s = run [] (reset_stock v) s ∧
  run [] (times (S m) (reset_stock v)) s = (Returned tt, <[STOCK_KEY := v]> s) ∧
  run [] (times (S m) (reset_stock v);; get_stock) s
    = (Returned v, <[STOCK_KEY := v]> s).
Proof.
  intros _.
  assert (run [] (times (S m) (reset_stock v)) s
          = (Returned tt, <[STOCK_KEY := v]> s)) as Hrun.
  { rewrite run_times_S, run_reset_stock. apply run_times_reset_stock. }
  split_and!; [by rewrite Hrun, run_reset_stock | done |].
  by rewrite run_bind_nil, Hrun, run_get_stock, level_insert.
Qed.

Lemma reset_stock_idempotent_witness :
  run [] (times 3 (reset_stock 20);; get_stock) (<[STOCK_KEY := 7]> ∅)
  = (Returned 20, <[STOCK_KEY := 20]> (<[STOCK_KEY := 7]> ∅)).
Proof.
  apply (reset_stock_idempotent 20 (<[STOCK_KEY := 7]> ∅) 2). lia.
Defined.

(** C10 — neither [reset_stock] nor its endpoint looks at the amount: for
    every integer [a], negative ones included, the reset returns, the
    counter holds [a] and [get_stock] right after returns [a]. *)
Theorem reset_stock_unvalidated (a : Z) (s : store) :
  run [] (reset_stock a) s = (Returned tt, <[STOCK_KEY := a]> s) ∧
  run [] (reset_stock a;; get_stock) s = (Returned a, <[STOCK_KEY := a]> s) ∧
  run [] (Main.reset_stock a) s
    = (Returned {["message"%string := JStr ("Stock reset to " +:+ pretty a);
                  "new_stock"%string := JInt a]},
       <[STOCK_KEY := a]> s) ∧
  run [] (Main.reset_stock a;; Main.get_stock) s
    = (Returned {["current_stock"%string := JInt a]}, <[STOCK_KEY := a]> s).
Proof.
  split_and!; try reflexivity.
  - by rewrite run_bind_nil, run_reset_stock, run_get_stock, level_insert.
  - rewrite run_bind_nil. cbn. unfold redis_get, redis_set.
    by rewrite lookup_insert_eq.
Qed.

Example reset_stock_negative :
  run [] (Main.reset_stock (-3);; Main.get_stock) ∅
  = (Returned {["current_stock"%string := JInt (-3)]}, <[STOCK_KEY := -3]> ∅).
Proof. reflexivity. Qed.

(** ** Interleaved execution *)

Section counting.
Context {A : Type} (P : A → Prop) `{!∀ x, Decision (P x)}.

(** Replacing one entry of a list moves the number of entries that
    satisfy [P] by the difference of the two entries. *)
Lemma length_filter_insert (l : list A) (i : nat) (x y : A) :
  l !! i = Some x →
  (length (filter P (<[i := y]> l)) + (if decide (P x) then 1 else 0)
   = length (filter P l) + (if decide (P y) then 1 else 0))%nat.
Proof.
  intros Hi.
  rewrite insert_take_drop by eauto using lookup_lt_Some.
  rewrite <- (take_drop_middle l i x Hi) at 3.
  rewrite !filter_app, !filter_cons, !length_app.
  do 2 case_decide; simpl; lia.
Qed.
End counting.

Lemma step_purchase_item_safe (s : store) :
  step purchase_item_safe s =
  if 0 <? level s then
    if level s <=? INT64_MAX
    then (Ret true, <[STOCK_KEY := level s - 1]> s)
    else (Raise (RedisError ResponseError), s)
  else (Ret false, s).
Proof.
  cbn. rewrite lua_script_stock_key.
  destruct (0 <? level s); [|done]. by destruct (level s <=? INT64_MAX).
Qed.

Lemma step_finished {A : Type} (p : prog A) (s : store) :
  finished p = true → step p s = (p, s).
Proof. by destruct p. Qed.

Lemma all_finished_count {A : Type} (pool : list (prog A)) :
  all_finished pool = true ↔ finished_count pool = length pool.
Proof.
  unfold all_finished, finished_count.
  induction pool as [|p pool IH]; [done|].
  rewrite filter_cons. simpl. destruct (finished p) eqn:Hp; simpl.
  - rewrite IH. lia.
  - pose proof (length_filter (λ p, finished p = true) pool). split; [done|lia].
Qed.

Lemma safe_pool_inv_init (n : nat) (s : store) :
  0 ≤ level s → safe_pool_inv (level s) (s, replicate n purchase_item_safe).
Proof.
  intros Hs. unfold safe_pool_inv. simpl.
  assert (successful_count (replicate n purchase_item_safe) = 0%nat) as ->.
  { unfold successful_count. induction n; [done|]. simpl.
    by rewrite filter_cons, decide_False. }
  assert (finished_count (replicate n purchase_item_safe) = 0%nat) as ->.
  { unfold finished_count. induction n; [done|]. simpl.
    by rewrite filter_cons, decide_False. }
  split_and!; [|lia..]. apply Forall_replicate. by left.
Qed.

Lemma safe_pool_inv_step (initial : Z) (cfg : store * list (prog bool)) (i : nat) :
  initial ≤ INT64_MAX →
  safe_pool_inv initial cfg → safe_pool_inv initial (step_task cfg i).
Proof.
  destruct cfg as [s pool]. intros Hmax (Hshape & Hcount & Hlevel). simpl in *.
  unfold step_task. simpl.
  destruct (pool !! i) as [p|] eqn:Hi; [|done].
  destruct (proj1 (Forall_lookup _ _) Hshape i p Hi) as [->|[b ->]].
  - pose proof (length_filter_insert (λ p, succeeded p = true) pool i _
                  (Ret true) Hi) as Hs1.
    pose proof (length_filter_insert (λ p, succeeded p = true) pool i _
                  (Ret false) Hi) as Hs0.
    pose proof (length_filter_insert (λ p, finished p = true) pool i _
                  (Ret true) Hi) as Hf1.
    pose proof (length_filter_insert (λ p, finished p = true) pool i _
                  (Ret false) Hi) as Hf0.
    simpl in Hs1, Hs0, Hf1, Hf0.
    rewrite step_purchase_item_safe.
    unfold successful_count, finished_count in *.
    destruct (Z.ltb_spec 0 (level s));
      [destruct (Z.leb_spec (level s) INT64_MAX); [|lia]|];
      unfold safe_pool_inv; simpl;
      unfold successful_count, finished_count in *;
      (split_and!; [apply Forall_insert; [done|right; eauto]|..]);
      rewrite ?level_insert; lia.
  - rewrite step_finished by done. by rewrite list_insert_id.
Qed.

Lemma safe_pool_inv_run (initial : Z) (sched : list nat)
    (cfg : store * list (prog bool)) :
  initial ≤ INT64_MAX →
  safe_pool_inv initial cfg → safe_pool_inv initial (run_schedule sched cfg).
Proof.
  intros Hmax. revert cfg.
  induction sched as [|i sched IH]; intros cfg Hcfg; [done|].
  apply IH. by apply safe_pool_inv_step.
Qed.

Section pool_facts.
Context {A : Type}.
Implicit Types (cfg : store * list (prog A)) (pool : list (prog A)).

Lemma step_task_length cfg i : length (step_task cfg i).2 = length cfg.2.
Proof.
  unfold step_task. destruct (cfg.2 !! i) as [p|]; [|done].
  destruct (step p cfg.1). simpl. apply length_insert.
Qed.

Lemma run_schedule_length sched cfg :
  length (run_schedule sched cfg).2 = length cfg.2.
Proof.
  revert cfg. induction sched as [|i sched IH]; intros cfg; [done|].
  simpl. by rewrite IH, step_task_length.
Qed.

Lemma run_schedule_app before after cfg :
  run_schedule (before ++ after) cfg
  = run_schedule after (run_schedule before cfg).
Proof. apply foldl_app. Qed.

Lemma run_schedule_cons i sched cfg :
  run_schedule (i :: sched) cfg = run_schedule sched (step_task cfg i).
Proof. reflexivity. Qed.

Lemma step_task_keeps_finished cfg i j :
  task_finished cfg.2 j → task_finished (step_task cfg i).2 j.
Proof.
  intros (p & Hj & Hp). unfold step_task.
  destruct (cfg.2 !! i) as [q|] eqn:Hi; [|by exists p].
  destruct (decide (i = j)) as [->|Hne].
  - assert (q = p) as -> by congruence.
    rewrite step_finished by done. simpl. exists p.
    by rewrite list_insert_id.
  - destruct (step q cfg.1). simpl. exists p.
    by rewrite list_lookup_insert_ne.
Qed.

Lemma run_schedule_keeps_finished sched cfg j :
  task_finished cfg.2 j → task_finished (run_schedule sched cfg).2 j.
Proof.
  revert cfg. induction sched as [|i sched IH]; intros cfg Hj; [done|].
  apply IH. by apply step_task_keeps_finished.
Qed.

Lemma all_finished_lookup pool :
  all_finished pool = true ↔ ∀ i, (i < length pool)%nat → task_finished pool i.
Proof.
  unfold all_finished, task_finished. induction pool as [|p pool IH]; simpl.
  - split; [intros _ i; lia|done].
  - rewrite andb_true_iff, IH. split.
    + intros [Hp Hall] [|i] Hi; [by exists p|]. apply Hall. lia.
    + intros Hall. split.
      * destruct (Hall 0%nat) as (q & [= <-] & Hq); [lia|done].
      * intros i Hi. apply (Hall (S i)). lia.
Qed.
End pool_facts.

(** A pool of safe purchases, in or out of the 64-bit range: every task has
    not started or is finished, and the stock is not negative. *)
Lemma safe_pool_step (cfg : store * list (prog bool)) (i : nat) :
  Forall (λ p, p = purchase_item_safe ∨ finished p = true) cfg.2 →
  0 ≤ level cfg.1 →
  Forall (λ p, p = purchase_item_safe ∨ finished p = true) (step_task cfg i).2 ∧
  0 ≤ level (step_task cfg i).1 ∧
  ((i < length cfg.2)%nat → task_finished (step_task cfg i).2 i).
Proof.
  destruct cfg as [s pool]. simpl. intros Hshape Hs. unfold step_task. simpl.
  destruct (pool !! i) as [p|] eqn:Hi.
  - destruct (proj1 (Forall_lookup _ _) Hshape i p Hi) as [->|Hp].
    + rewrite step_purchase_item_safe.
      destruct (Z.ltb_spec 0 (level s)); [destruct (level s <=? INT64_MAX)|];
        simpl; rewrite ?level_insert;
        (split_and!; [apply Forall_insert; [done|by right]|lia|]);
        intros Hlt; eexists; (split; [by apply list_lookup_insert_eq|done]).
    + rewrite step_finished by done. simpl. rewrite list_insert_id by done.
      split_and!; [done..|]. intros _. by exists p.
  - split_and!; [done..|]. intros Hlt. apply lookup_ge_None in Hi. lia.
Qed.

Lemma safe_pool_run (sched : list nat) (cfg : store * list (prog bool)) :
  Forall (λ p, p = purchase_item_safe ∨ finished p = true) cfg.2 →
  0 ≤ level cfg.1 →
  Forall (λ p, p = purchase_item_safe ∨ finished p = true) (run_schedule sched cfg).2 ∧
  0 ≤ level (run_schedule sched cfg).1.
Proof.
  revert cfg. induction sched as [|i sched IH]; intros cfg Hshape Hs; [done|].
  rewrite run_schedule_cons.
  destruct (safe_pool_step cfg i Hshape Hs) as (Hshape' & Hs' & _). by apply IH.
Qed.

(** One step is all a safe purchase needs. *)
Lemma safe_pool_progress (n : nat) (sched : list nat) (s : store) :
  0 ≤ level s →
  (∀ i, (i < n)%nat → i ∈ sched) →
  all_finished (run_schedule sched (s, replicate n purchase_item_safe)).2 = true.
Proof.
  intros Hs Hfair. apply all_finished_lookup. intros i Hi.
  rewrite run_schedule_length in Hi. simpl in Hi. rewrite length_replicate in Hi.
  destruct (list_elem_of_split _ _ (Hfair i Hi)) as (before & after & ->).
  rewrite run_schedule_app, run_schedule_cons.
  apply run_schedule_keeps_finished.
  destruct (safe_pool_run before (s, replicate n purchase_item_safe))
    as [Hshape Hlevel]; [apply Forall_replicate; by left|done|].
  destruct (safe_pool_step _ i Hshape Hlevel) as (_ & _ & Hstep).
  apply Hstep. by rewrite run_schedule_length; simpl; rewrite length_replicate.
Qed.

Lemma nonnegative_level (s : store) :
  (∀ v, s !! STOCK_KEY = Some v → 0 ≤ v) ↔ 0 ≤ level s.
Proof.
  unfold level. destruct (s !! STOCK_KEY) as [v|].
  - split; [eauto|]. by intros ? ? [= <-].
  - split; [done|]. by intros.
Qed.

(** ** The safe path under contention *)

(** C1, as stated, does not hold for every initial stock.  The script's
    DECR works on signed 64-bit integers: with a stock of 2^63, which
    [reset_stock] stores as readily as any other, one safe purchase is
    refused by the store with a response error, nothing is sold and the
    stock stays as it was, although [min 1 (2^63) = 1]. *)
Lemma purchase_item_safe_not_exact_beyond_int64 :
  let s : store := <[STOCK_KEY := 9223372036854775808]> ∅ in
  let cfg := run_schedule [0]%nat (s, replicate 1 purchase_item_safe) in
  run [] get_stock s = (Returned 9223372036854775808, s) ∧
  all_finished cfg.2 = true ∧
  cfg.2 = [Raise (RedisError ResponseError)] ∧
  successful_count cfg.2 = 0%nat ∧
  Z.min (Z.of_nat 1) 9223372036854775808 = 1 ∧
  cfg.1 = s ∧
  Z.max (9223372036854775808 - Z.of_nat 1) 0 = 9223372036854775807 ∧
  run [] get_stock cfg.1 = (Returned 9223372036854775808, cfg.1).
Proof. by vm_compute. Qed.

(** C1, amended — start [n] concurrent safe purchases from a store whose
    stock reads [initial] with [0 ≤ initial ≤ 2^63 - 1] and let the
    scheduler interleave them in any order.  Once every attempt has had its
    turn all of them have returned, and whenever all have returned the
    number of successes is [min n initial] and the stock reads
    [max (initial - n) 0]: the same on every run.  (The store answers every
    command; each script runs as one step.) *)
Theorem purchase_item_safe_exact (n : nat) (initial : Z) (s : store)
    (sched : list nat) :
  0 ≤ initial →
  initial ≤ INT64_MAX →
  run [] get_stock s = (Returned initial, s) →
  let cfg := run_schedule sched (s, replicate n purchase_item_safe) in
  ((∀ i, (i < n)%nat → i ∈ sched) → all_finished cfg.2 = true) ∧
  (all_finished cfg.2 = true →
     Z.of_nat (successful_count cfg.2) = Z.min (Z.of_nat n) initial ∧
     run [] get_stock cfg.1 = (Returned (Z.max (initial - Z.of_nat n) 0), cfg.1)).
Proof.
  intros Hinitial Hmax Hread cfg.
  rewrite run_get_stock in Hread. injection Hread as Hlevel.
  assert (safe_pool_inv initial (s, replicate n purchase_item_safe)) as Hinit.
  { rewrite <- Hlevel. apply safe_pool_inv_init. lia. }
  split.
  - intros Hfair. apply safe_pool_progress; [lia|done].
  - intros Hdone. apply all_finished_count in Hdone.
    subst cfg. rewrite run_schedule_length in Hdone. simpl in Hdone.
    rewrite length_replicate in Hdone.
    destruct (safe_pool_inv_run initial sched _ Hmax Hinit) as (_ & Hcount & Hfinal).
    rewrite Hdone in Hcount. split; [done|].
    rewrite run_get_stock. do 2 f_equal. lia.
Qed.

Lemma purchase_item_safe_exact_witness :
  let cfg := run_schedule [2; 0; 1; 0]%nat
               (<[STOCK_KEY := 2]> ∅, replicate 3 purchase_item_safe) in
  all_finished cfg.2 = true ∧
  Z.of_nat (successful_count cfg.2) = Z.min 3 2 ∧
  run [] get_stock cfg.1 = (Returned (Z.max (2 - 3) 0), cfg.1).
Proof.
  destruct (purchase_item_safe_exact 3 2 (<[STOCK_KEY := 2]> ∅) [2; 0; 1; 0]%nat)
    as [Hfinishes Hexact]; [lia|by vm_compute|reflexivity|].
  assert (all_finished
            (run_schedule [2; 0; 1; 0]%nat
               (<[STOCK_KEY := 2]> ∅, replicate 3 purchase_item_safe)).2 = true)
    as Hdone.
  { apply Hfinishes. intros i Hi.
    destruct i as [|[|[|i]]]; [repeat constructor..|lia]. }
  split; [exact Hdone|]. exact (Hexact Hdone).
Defined.

(** C4 — a stock that is not negative stays so under safe purchases,
    whatever the calls return: in the store left by any number of calls in a
    row, and in the store at every point of every interleaving of any number
    of concurrent calls, the stock reads as non-negative and no negative
    value is stored.  When the stock is within the store's 64-bit range the
    calls in a row all return. *)
Theorem purchase_item_safe_never_negative (s : store) :
  (∀ v, s !! STOCK_KEY = Some v → 0 ≤ v) →
  (∀ n,
     let s' := (run [] (times n purchase_item_safe) s).2 in
     0 ≤ level s' ∧ ∀ v, s' !! STOCK_KEY = Some v → 0 ≤ v) ∧
  (∀ n sched,
     let s' := (run_schedule sched (s, replicate n purchase_item_safe)).1 in
     0 ≤ level s' ∧ ∀ v, s' !! STOCK_KEY = Some v → 0 ≤ v) ∧
  (level s ≤ INT64_MAX →
   ∀ n, (run [] (times n purchase_item_safe) s).1 = Returned tt).
Proof.
  rewrite nonnegative_level. intros Hs. split_and!.
  - intros n s'. rewrite nonnegative_level.
    pose proof (run_times_purchase_item_safe_nonnegative n s Hs). done.
  - intros n sched s'. rewrite nonnegative_level.
    destruct (safe_pool_run sched (s, replicate n purchase_item_safe))
      as [_ Hfinal]; [apply Forall_replicate; by left|done|done].
  - intros Hmax n.
    destruct (run_times_purchase_item_safe n s Hs Hmax) as (s' & -> & _). done.
Qed.

Lemma purchase_item_safe_never_negative_witness :
  0 ≤ level (run_schedule [1; 1; 0; 2]%nat
               (<[STOCK_KEY := 1]> ∅, replicate 3 purchase_item_safe)).1.
Proof.
  refine (proj1 (proj1 (proj2 (purchase_item_safe_never_negative
                                 (<[STOCK_KEY := 1]> ∅) _))
                   3%nat [1; 1; 0; 2]%nat)).
  intros w. rewrite lookup_insert_eq. intros [= <-]. lia.
Defined.

(** ** The service boundary *)

Lemma run_link_purchase_item_safe (l : link) (s : store) :
  run l purchase_item_safe s =
  match head l with
  | Some (Some e) => (Raised (RedisError e), s)
  | _ => run [] purchase_item_safe s
  end.
Proof.
  by destruct l as [|[e|] l].
Qed.

Lemma run_link_purchase_item_unsafe (l : link) (s : store) :
  run l purchase_item_unsafe s =
  match head l with
  | Some (Some e) => (Raised (RedisError e), s)
  | _ =>
      if 0 <? level s then
        match head (tail l) with
        | Some (Some e) => (Raised (RedisError e), s)
        | _ => (Returned true, <[STOCK_KEY := level s - 1]> s)
        end
      else (Returned false, s)
  end.
Proof.
  unfold level.
  destruct l as [|[e|] l]; try reflexivity; cbn; unfold redis_get;
    (destruct (s !! STOCK_KEY) as [v|]; [|done]); by destruct (0 <? v).
Qed.

Lemma translates_intro (method : string) (l : link) (p : prog bool) (s : store) :
  (∀ e, (run l p s).1 = Raised e → ∃ r, e = RedisError r) →
  translates method (run l p s)
    (run l (success ← p;
            if negb success then Raise (HTTPException 400 "Out of stock")
            else mret {["success"%string := JBool true;
                        "method"%string := JStr method]}) s).
Proof.
  intros Hexn. rewrite run_bind_finished by by intros [].
  destruct (run l p s) as [[[]|e] s'] eqn:Hrun; simpl in *; unfold translates; simpl.
  - split_and!; try done; try (split; [done|lia]).
  - split_and!; try done; split; try done; lia.
  - destruct (Hexn e eq_refl) as [r ->].
    split_and!; try done; try (split; [done|lia]).
    intros ? [= <-]. done.
Qed.

(** C7 — each purchase endpoint answers with a client error (status 400)
    exactly when its purchase method returned false and with the success
    body (status 200) exactly when it returned true; a store fault raised in
    the engine leaves the handler as the same exception and is answered with
    500, never with the out-of-stock status.  The handler does nothing else
    to the store. *)
Theorem purchase_endpoints_translate (l : link) (s : store) :
  translates "unsafe" (run l purchase_item_unsafe s) (run l Main.purchase_unsafe s) ∧
  translates "safe" (run l purchase_item_safe s) (run l Main.purchase_safe s).
Proof.
  split; apply translates_intro.
  - rewrite run_link_purchase_item_unsafe. intros e.
    destruct (head l) as [[?|]|]; [intros [= <-]; eauto|..];
      (destruct (0 <? level s); [|done]);
      destruct (head (tail l)) as [[?|]|]; try done; intros [= <-]; eauto.
  - rewrite run_link_purchase_item_safe, run_purchase_item_safe. intros e.
    destruct (head l) as [[?|]|]; [intros [= <-]; eauto|..];
      (destruct (0 <? level s); [|done]);
      (destruct (level s <=? INT64_MAX); [done|]); intros [= <-]; eauto.
Qed.

Lemma purchase_endpoints_translate_witness :
  http_status (run [Some ConnectionError] Main.purchase_safe (<[STOCK_KEY := 0]> ∅)).1
    = 500 ∧
  400 ≤ http_status (run [] Main.purchase_safe (<[STOCK_KEY := 0]> ∅)).1 < 500 ∧
  http_status (run [None; Some TimeoutError] Main.purchase_unsafe
                 (<[STOCK_KEY := 1]> ∅)).1 = 500 ∧
  http_status (run [] Main.purchase_unsafe (<[STOCK_KEY := 1]> ∅)).1 = 200.
Proof.
  split; [|split; [|split]].
  - destruct (purchase_endpoints_translate [Some ConnectionError]
                (<[STOCK_KEY := 0]> ∅)) as [_ (_ & _ & _ & _ & _ & H)].
    apply (H (RedisError ConnectionError)). reflexivity.
  - destruct (purchase_endpoints_translate [] (<[STOCK_KEY := 0]> ∅))
      as [_ (_ & _ & H & _)].
    apply H. reflexivity.
  - destruct (purchase_endpoints_translate [None; Some TimeoutError]
                (<[STOCK_KEY := 1]> ∅)) as [(_ & _ & _ & _ & _ & H) _].
    apply (H (RedisError TimeoutError)). reflexivity.
  - destruct (purchase_endpoints_translate [] (<[STOCK_KEY := 1]> ∅))
      as [(_ & _ & _ & _ & H & _) _].
    apply H. reflexivity.
Defined.

(** ** The harness's aggregation *)

Import Attack.

#[local] Arguments CONCURRENT_USERS : simpl never.

(** C8, as stated, does not hold.  Take a run of 500 attempts in which one
    post fails to connect and 499 are answered 400, and a run in which all
    500 are answered 400: the first has one failed attempt, the second
    none, and [run_attack] returns the same for both.  So no reading of the
    result tells a failed attempt from a sold-out one. *)
Lemma run_attack_folds_errors :
  errored (ClientException :: replicate 499 (Response 400)) = 1%nat ∧
  errored (replicate 500 (Response 400)) = 0%nat ∧
  run_attack (ClientException :: replicate 499 (Response 400)) 0 ()
    = run_attack (replicate 500 (Response 400)) 0 () ∧
  ¬ tracks_errors_separately.
Proof.
  split_and!; [by vm_compute..|].
  intros [errors Herrors].
  pose proof (Herrors (ClientException :: replicate 499 (Response 400)) 0) as H1.
  pose proof (Herrors (replicate 500 (Response 400)) 0) as H0.
  vm_compute in H1, H0. congruence.
Qed.

Lemma successful_app {T : Type} (before after : list post_result)
    (current_stock : Z) (duration : T) :
  (run_attack (before ++ after) current_stock duration).1.1
  = ((run_attack before current_stock duration).1.1
     + (run_attack after current_stock duration).1.1)%nat.
Proof.
  unfold run_attack. simpl. by rewrite fmap_app, filter_app, length_app.
Qed.

(** C8, amended — an attempt whose post fails gets the status 500 from
    [make_purchase], which is neither the success status nor the
    out-of-stock one, and is not counted as a success.  The result of
    [run_attack] holds the number of 200 statuses, the final stock and the
    duration, nothing else: an attempt that failed (in the client, or in the
    service with 500) and an attempt answered 400 leave it the same. *)
Theorem run_attack_counts_only_successes {T : Type}
    (before after : list post_result) (current_stock : Z) (duration : T) :
  make_purchase ClientException = 500 ∧
  run_attack (before ++ ClientException :: after) current_stock duration
    = run_attack (before ++ after) current_stock duration ∧
  run_attack (before ++ Response 500 :: after) current_stock duration
    = run_attack (before ++ after) current_stock duration ∧
  run_attack (before ++ Response 400 :: after) current_stock duration
    = run_attack (before ++ after) current_stock duration ∧
  (run_attack (before ++ Response 200 :: after) current_stock duration).1.1
    = S (run_attack (before ++ after) current_stock duration).1.1.
Proof.
  assert (∀ post, make_purchase post ≠ 200 →
            run_attack (before ++ post :: after) current_stock duration
            = run_attack (before ++ after) current_stock duration) as Hskip.
  { intros post Hpost. unfold run_attack. do 2 f_equal.
    rewrite !fmap_app, fmap_cons, !filter_app, filter_cons.
    by rewrite decide_False. }
  split_and!; [done|by apply Hskip..|].
  change (Response 200 :: after) with ([Response 200] ++ after).
  rewrite !successful_app. simpl. lia.
Qed.

(** ** The harness against the service *)

(** The race of the unsafe path on the smallest pool: two purchases and one
    unit.  Both read 1 before either writes, both report success, and the
    stock ends at 0. *)
Example purchase_item_unsafe_oversells :
  let cfg := run_schedule [0; 1; 0; 1; 0; 1]%nat
               (<[STOCK_KEY := 1]> ∅, [purchase_item_unsafe; purchase_item_unsafe]) in
  all_finished cfg.2 = true ∧ successful_count cfg.2 = 2%nat ∧ level cfg.1 = 0.
Proof. by vm_compute. Qed.

(** One after the other the same two purchases sell the one unit once. *)
Example purchase_item_unsafe_in_turn :
  let cfg := run_schedule [0; 0; 0; 1; 1; 1]%nat
               (<[STOCK_KEY := 1]> ∅, [purchase_item_unsafe; purchase_item_unsafe]) in
  all_finished cfg.2 = true ∧ successful_count cfg.2 = 1%nat ∧ level cfg.1 = 0.
Proof. by vm_compute. Qed.

(** Scenario A on one schedule, and the unsafe endpoint on the schedule in
    which all 500 handlers read before any of them writes: 500 sales of 50
    units, and a final stock of 49. *)
Example attack_safe_in_order :
  attack "safe" (seq 0 500) ∅ = Some (50%nat, 0, ()).
Proof. by vm_compute. Qed.

Example attack_unsafe_oversells :
  attack "unsafe" (seq 0 500 ++ seq 0 500 ++ seq 0 500) ∅ = Some (500%nat, 49, ()).
Proof. by vm_compute. Qed.

Section bind_pool.
Context {A B : Type} (f : A → prog B).
Hypothesis f_finished : ∀ a, finished (f a) = true.




End bind_pool.






(** * Part III: the rest of the code *)

(** ** The unsafe path under contention *)

Lemma step_resume (t : unsafe_task) (s : store) :
  step (resume t) s = (resume (unsafe_step t s).1, (unsafe_step t s).2).
Proof.
  destruct t as [|v|v|b]; try reflexivity.
  cbn. unfold level, redis_get.
  destruct (s !! STOCK_KEY) as [v|]; [|done]. by destruct (0 <? v).
Qed.

Lemma step_task_resume (s : store) (ts : list unsafe_task) (i : nat) :
  step_task (s, resume <$> ts) i
  = ((unsafe_step_task (s, ts) i).1, resume <$> (unsafe_step_task (s, ts) i).2).
Proof.
  unfold step_task, unsafe_step_task. simpl. rewrite list_lookup_fmap.
  destruct (ts !! i) as [t|]; simpl; [|done].
  rewrite step_resume. destruct (unsafe_step t s) as [t' s']. simpl.
  by rewrite list_fmap_insert.
Qed.

(** The pool of coroutines moves as its suspension points do. *)
Lemma run_schedule_resume (sched : list nat) (s : store) (ts : list unsafe_task) :
  run_schedule sched (s, resume <$> ts)
  = ((unsafe_run sched (s, ts)).1, resume <$> (unsafe_run sched (s, ts)).2).
Proof.
  revert s ts. induction sched as [|i sched IH]; intros s ts; [done|].
  rewrite run_schedule_cons, step_task_resume.
  destruct (unsafe_step_task (s, ts) i) as [s' ts'] eqn:Hstep.
  unfold unsafe_run. simpl. rewrite Hstep. apply IH.
Qed.

Lemma count_insert {A : Type} (f : A → bool) (l : list A) (i : nat) (x y : A) :
  l !! i = Some x →
  (count f (<[i := y]> l) + (if f x then 1 else 0)
   = count f l + (if f y then 1 else 0))%nat.
Proof.
  intros Hi. pose proof (length_filter_insert (λ x, f x = true) l i x y Hi) as H.
  unfold count. simpl in H. by destruct (f x), (f y).
Qed.

Lemma unsafe_pool_inv_step (initial : Z) (s : store) (ts : list unsafe_task)
    (i : nat) (t : unsafe_task) :
  unsafe_pool_inv initial s ts → ts !! i = Some t →
  unsafe_pool_inv initial (unsafe_step t s).2 (<[i := (unsafe_step t s).1]> ts).
Proof.
  intros (Hlevel & Htaken & Hflight & Hrefused & Hsold) Hi.
  pose proof (proj1 (Forall_lookup _ _) Hflight i t Hi) as Ht.
  pose proof (count_insert passed ts i t (unsafe_step t s).1 Hi) as Hp.
  pose proof (count_insert refused ts i t (unsafe_step t s).1 Hi) as Hr.
  pose proof (count_insert sold ts i t (unsafe_step t s).1 Hi) as Hs.
  assert (∀ c : Z,
            Z.of_nat (count passed ts) ≤ c →
            Forall (λ t, ∀ v, in_flight t = Some v →
                           1 ≤ v ≤ initial ∧ initial - v + 1 ≤ c) ts) as Hmono.
  { intros c Hc. eapply Forall_impl; [exact Hflight|].
    intros t0 Ht0 v Hv. specialize (Ht0 v Hv). lia. }
  unfold unsafe_pool_inv.
  destruct t as [|v|v|[]]; simpl in *.
  - destruct (Z.ltb_spec 0 (level s)); simpl in *.
    + split_and!; try lia.
      apply Forall_insert; [apply Hmono; lia|]. intros v [= <-]. lia.
    + split_and!; try lia.
      apply Forall_insert; [apply Hmono; lia|done].
  - specialize (Ht v eq_refl). split_and!; try lia.
    apply Forall_insert; [apply Hmono; lia|]. intros w [= <-]. lia.
  - specialize (Ht v eq_refl). rewrite level_insert. split_and!; try lia.
    apply Forall_insert; [apply Hmono; lia|done].
  - rewrite list_insert_id by done. done.
  - rewrite list_insert_id by done. done.
Qed.

Lemma unsafe_pool_inv_run (initial : Z) (sched : list nat) (s : store)
    (ts : list unsafe_task) :
  unsafe_pool_inv initial s ts →
  unsafe_pool_inv initial (unsafe_run sched (s, ts)).1 (unsafe_run sched (s, ts)).2.
Proof.
  revert s ts. induction sched as [|i sched IH]; intros s ts Hinv; [done|].
  unfold unsafe_run. simpl. unfold unsafe_step_task at 2 4. simpl.
  destruct (ts !! i) as [t|] eqn:Hi; [|by apply IH].
  pose proof (unsafe_pool_inv_step initial s ts i t Hinv Hi) as Hstep.
  destruct (unsafe_step t s) as [t' s']. by apply IH.
Qed.

Lemma unsafe_pool_inv_init (n : nat) (s : store) :
  0 ≤ level s → unsafe_pool_inv (level s) s (replicate n Fresh).
Proof.
  intros Hs.
  assert (∀ f, f Fresh = false → count f (replicate n Fresh) = 0%nat) as Hzero.
  { intros f Hf. unfold count. induction n; [done|]. simpl.
    by rewrite filter_cons, decide_False by (rewrite Hf; done). }
  unfold unsafe_pool_inv. rewrite !Hzero by done.
  split_and!; try lia. by apply Forall_replicate.
Qed.

Lemma successful_count_resume (ts : list unsafe_task) :
  successful_count (resume <$> ts) = count sold ts.
Proof.
  unfold successful_count, count. induction ts as [|t ts IH]; [done|].
  rewrite fmap_cons, !filter_cons. destruct t as [| | |[]]; simpl; by rewrite IH.
Qed.

Lemma all_finished_resume (ts : list unsafe_task) :
  all_finished (resume <$> ts) = true ↔ Forall (λ t, turns_left t = 0%nat) ts.
Proof.
  unfold all_finished. induction ts as [|t ts IH]; [done|].
  rewrite fmap_cons, Forall_cons. cbn [forallb]. rewrite andb_true_iff, IH.
  destruct t; simpl; intuition congruence.
Qed.

(** In a pool that has returned, the purchases that passed the check are
    the successful ones, and all others were refused. *)
Lemma count_returned (ts : list unsafe_task) :
  Forall (λ t, turns_left t = 0%nat) ts →
  count passed ts = count sold ts ∧
  (count sold ts + count refused ts = length ts)%nat.
Proof.
  unfold count. induction 1 as [|t ts Ht _ [IH1 IH2]]; [done|].
  rewrite !filter_cons. destruct t as [| | |[]]; try done; simpl; lia.
Qed.

Lemma unsafe_run_length (sched : list nat) (s : store) (ts : list unsafe_task) :
  length (unsafe_run sched (s, ts)).2 = length ts.
Proof.
  pose proof (run_schedule_length sched (s, resume <$> ts)) as H.
  rewrite run_schedule_resume in H. simpl in H. by rewrite !length_fmap in H.
Qed.

Lemma unsafe_step_turns (t : unsafe_task) (s : store) :
  (turns_left (unsafe_step t s).1 ≤ turns_left t - 1)%nat.
Proof. destruct t; simpl; [destruct (0 <? level s); simpl|..]; lia. Qed.

Lemma count_cons {A : Type} (f : A → bool) (x : A) (l : list A) :
  count f (x :: l) = ((if f x then 1 else 0) + count f l)%nat.
Proof. unfold count. rewrite filter_cons. by destruct (f x). Qed.

(** Every turn a task gets brings it one suspension point further. *)
Lemma unsafe_run_turns (sched : list nat) (s : store) (ts : list unsafe_task)
    (i : nat) (t : unsafe_task) :
  ts !! i = Some t →
  ∃ t', (unsafe_run sched (s, ts)).2 !! i = Some t' ∧
        (turns_left t' ≤ turns_left t - count (Nat.eqb i) sched)%nat.
Proof.
  revert s ts t. induction sched as [|j sched IH]; intros s ts t Hi.
  - exists t. split; [done|]. change (count (Nat.eqb i) []) with 0%nat. lia.
  - unfold unsafe_run. simpl. unfold unsafe_step_task at 2. simpl.
    rewrite count_cons.
    destruct (ts !! j) as [tj|] eqn:Hj.
    + pose proof (unsafe_step_turns tj s) as Hturn.
      destruct (unsafe_step tj s) as [tj' s']. simpl in Hturn.
      destruct (Nat.eqb_spec i j) as [->|Hne].
      * assert (tj = t) as -> by congruence.
        destruct (IH s' (<[j := tj']> ts) tj') as (t' & Ht' & Hle).
        { apply list_lookup_insert_eq. eauto using lookup_lt_Some. }
        exists t'. split; [done|]. lia.
      * destruct (IH s' (<[j := tj']> ts) t) as (t' & Ht' & Hle).
        { by rewrite list_lookup_insert_ne. }
        exists t'. split; [done|]. lia.
    + destruct (Nat.eqb_spec i j) as [->|Hne]; [congruence|].
      destruct (IH s ts t Hi) as (t' & Ht' & Hle).
      exists t'. split; [done|]. lia.
Qed.

(** Three turns each are enough for a pool of unsafe purchases. *)
Lemma unsafe_pool_progress (sched : list nat) (s : store) (n : nat) :
  (∀ i, (i < n)%nat → (3 ≤ count (Nat.eqb i) sched)%nat) →
  all_finished (run_schedule sched (s, replicate n purchase_item_unsafe)).2 = true.
Proof.
  intros Hfair.
  change purchase_item_unsafe with (resume Fresh).
  rewrite <- fmap_replicate, run_schedule_resume. simpl.
  apply all_finished_resume, Forall_lookup. intros i t' Hi.
  assert (i < n)%nat as Hlt.
  { apply lookup_lt_Some in Hi. by rewrite unsafe_run_length, length_replicate in Hi. }
  destruct (unsafe_run_turns sched s (replicate n Fresh) i Fresh) as (t & Ht & Hle).
  { by apply lookup_replicate_2. }
  assert (t = t') as -> by congruence.
  specialize (Hfair i Hlt). simpl in Hle. lia.
Qed.

Lemma unsafe_pool_inv_schedule (n : nat) (s : store) (sched : list nat) :
  0 ≤ level s →
  ∃ ts, run_schedule sched (s, replicate n purchase_item_unsafe)
          = ((run_schedule sched (s, replicate n purchase_item_unsafe)).1,
             resume <$> ts) ∧
        length ts = n ∧
        unsafe_pool_inv (level s)
          (run_schedule sched (s, replicate n purchase_item_unsafe)).1 ts.
Proof.
  intros Hs. change purchase_item_unsafe with (resume Fresh).
  rewrite <- fmap_replicate, run_schedule_resume. simpl.
  exists (unsafe_run sched (s, replicate n Fresh)).2. split_and!; [done|..].
  - by rewrite unsafe_run_length, length_replicate.
  - by apply unsafe_pool_inv_run, unsafe_pool_inv_init.
Qed.

(** X1 — however [n] unsafe purchases interleave, from a stock that reads
    [initial ≥ 0], the stock never reads below 0 nor above [initial]: a
    purchase only ever writes a value it read as positive, minus one. *)
Theorem purchase_item_unsafe_stock_in_range (n : nat) (initial : Z) (s : store)
    (sched : list nat) :
  0 ≤ initial →
  run [] get_stock s = (Returned initial, s) →
  let cfg := run_schedule sched (s, replicate n purchase_item_unsafe) in
  0 ≤ level cfg.1 ≤ initial ∧
  (∀ v, cfg.1 !! STOCK_KEY = Some v → 0 ≤ v ≤ initial).
Proof.
  intros Hinitial Hread cfg. rewrite run_get_stock in Hread.
  injection Hread as Hlevel.
  destruct (unsafe_pool_inv_schedule n s sched) as (ts & _ & _ & Hinv); [lia|].
  fold cfg in Hinv. rewrite Hlevel in Hinv. destruct Hinv as (Hrange & _).
  split; [done|]. intros v Hv. by rewrite (level_present _ _ Hv) in Hrange.
Qed.

Lemma purchase_item_unsafe_stock_in_range_witness :
  0 ≤ level (run_schedule [0; 1; 2; 0; 1; 0; 2; 1; 2]%nat
               (<[STOCK_KEY := 2]> ∅, replicate 3 purchase_item_unsafe)).1 ≤ 2.
Proof.
  refine (proj1 (purchase_item_unsafe_stock_in_range 3 2 (<[STOCK_KEY := 2]> ∅)
                   [0; 1; 2; 0; 1; 0; 2; 1; 2]%nat _ _)); [lia|reflexivity].
Defined.

(** X2 — once [n] interleaved unsafe purchases have all returned (three
    turns each are enough), at least [min n initial] of them succeeded: the
    unsafe path never sells less than the safe one.  The stock reads at
    least [initial] minus the successes (each further unit was lost to an
    overwritten decrement), and reads below [initial] as soon as one
    purchase could succeed. *)
Theorem purchase_item_unsafe_never_undersells (n : nat) (initial : Z) (s : store)
    (sched : list nat) :
  0 ≤ initial →
  run [] get_stock s = (Returned initial, s) →
  let cfg := run_schedule sched (s, replicate n purchase_item_unsafe) in
  ((∀ i, (i < n)%nat → (3 ≤ count (Nat.eqb i) sched)%nat) →
   all_finished cfg.2 = true) ∧
  (all_finished cfg.2 = true →
     Z.min (Z.of_nat n) initial ≤ Z.of_nat (successful_count cfg.2) ≤ Z.of_nat n ∧
     initial - Z.of_nat (successful_count cfg.2) ≤ level cfg.1 ∧
     ((0 < n)%nat → 0 < initial → level cfg.1 < initial)).
Proof.
  intros Hinitial Hread cfg. rewrite run_get_stock in Hread.
  injection Hread as Hlevel.
  split; [apply unsafe_pool_progress|]. intros Hdone.
  destruct (unsafe_pool_inv_schedule n s sched) as (ts & Hts & Hlen & Hinv); [lia|].
  fold cfg in Hts, Hinv. rewrite Hlevel in Hinv.
  assert (cfg.2 = resume <$> ts) as Hpool by by rewrite Hts.
  rewrite Hpool in Hdone |- *. rewrite successful_count_resume.
  apply all_finished_resume, count_returned in Hdone as [Hpassed Htotal].
  destruct Hinv as (Hrange & Htaken & _ & Hrefused & Hsold).
  rewrite Hpassed in *. rewrite Hlen in Htotal.
  destruct (decide (0 < count refused ts)%nat) as [Hr|Hr].
  - specialize (Hrefused Hr). lia.
  - lia.
Qed.

Lemma purchase_item_unsafe_never_undersells_witness :
  let cfg := run_schedule [0; 1; 2; 0; 1; 0; 2; 1; 2]%nat
               (<[STOCK_KEY := 2]> ∅, replicate 3 purchase_item_unsafe) in
  all_finished cfg.2 = true ∧
  Z.min 3 2 ≤ Z.of_nat (successful_count cfg.2) ≤ 3 ∧
  2 - Z.of_nat (successful_count cfg.2) ≤ level cfg.1.
Proof.
  destruct (purchase_item_unsafe_never_undersells 3 2 (<[STOCK_KEY := 2]> ∅)
              [0; 1; 2; 0; 1; 0; 2; 1; 2]%nat) as [Hfinishes Hbounds];
    [lia|reflexivity|].
  assert (all_finished
            (run_schedule [0; 1; 2; 0; 1; 0; 2; 1; 2]%nat
               (<[STOCK_KEY := 2]> ∅, replicate 3 purchase_item_unsafe)).2 = true)
    as Hdone.
  { apply Hfinishes. intros i Hi.
    destruct i as [|[|[|i]]]; [vm_compute; lia..|lia]. }
  destruct (Hbounds Hdone) as (Hcount & Hstock & _).
  split; [exact Hdone|]. split; [exact Hcount|exact Hstock].
Defined.

(** One turn for each task of a pool in order, when all tasks are at the
    same suspension point [t] and a turn there has the same effect from the
    store it leaves as from the store it found. *)
Lemma unsafe_run_sweep (t t' : unsafe_task) (s s' : store) :
  unsafe_step t s = (t', s') → unsafe_step t s' = (t', s') →
  ∀ m k sc, sc = s ∨ sc = s' →
    unsafe_run (seq k m) (sc, replicate k t' ++ replicate m t)
    = (match m with O => sc | S _ => s' end, replicate (k + m) t').
Proof.
  intros Hs Hs'. induction m as [|m IH]; intros k sc Hsc.
  - simpl. by rewrite app_nil_r, Nat.add_0_r.
  - assert (unsafe_step_task (sc, replicate k t' ++ replicate (S m) t) k
            = (s', replicate (S k) t' ++ replicate m t)) as Hturn.
    { unfold unsafe_step_task. cbn [fst snd replicate].
      rewrite list_lookup_middle by by rewrite length_replicate.
      assert (unsafe_step t sc = (t', s')) as -> by by destruct Hsc as [->| ->].
      f_equal. change (t' :: replicate k t') with (replicate (S k) t').
      rewrite replicate_S_end, <- app_assoc. simpl.
      rewrite <- (Nat.add_0_r k) at 1.
      rewrite <- (length_replicate k t') at 1. by rewrite insert_app_r. }
    cbn [seq]. change (unsafe_run (k :: seq (S k) m) ?cfg)
      with (unsafe_run (seq (S k) m) (unsafe_step_task cfg k)).
    rewrite Hturn, (IH (S k) s') by by right.
      replace (S k + m)%nat with (k + S m)%nat by lia. by destruct m.
Qed.

Lemma unsafe_run_round (t t' : unsafe_task) (s s' : store) (n : nat) :
  unsafe_step t s = (t', s') → unsafe_step t s' = (t', s') →
  unsafe_run (seq 0 (S n)) (s, replicate (S n) t) = (s', replicate (S n) t').
Proof.
  intros Hs Hs'.
  apply (unsafe_run_sweep t t' s s' Hs Hs' (S n) 0%nat s). by left.
Qed.

Lemma unsafe_run_app (before after : list nat) (cfg : store * list unsafe_task) :
  unsafe_run (before ++ after) cfg = unsafe_run after (unsafe_run before cfg).
Proof. apply foldl_app. Qed.

(** X3 — the lost update, for any pool: when all [n ≥ 1] unsafe purchases
    read before any of them writes (one turn each, three times over), every
    one of them succeeds and the stock ends one below what it was, whatever
    [n] is.  With more purchases than units this sells stock that does not
    exist. *)
Theorem purchase_item_unsafe_oversells_any (n : nat) (s : store) :
  0 < level s → (0 < n)%nat →
  let cfg := run_schedule (seq 0 n ++ seq 0 n ++ seq 0 n)
               (s, replicate n purchase_item_unsafe) in
  cfg.2 = replicate n (Ret true) ∧
  successful_count cfg.2 = n ∧
  cfg.1 = <[STOCK_KEY := level s - 1]> s.
Proof.
  intros Hs Hn cfg. subst cfg. destruct n as [|n]; [lia|].
  change purchase_item_unsafe with (resume Fresh).
  rewrite <- fmap_replicate, run_schedule_resume, !unsafe_run_app.
  rewrite (unsafe_run_round Fresh (Sleeping (level s)) s s);
    [|simpl; by destruct (Z.ltb_spec 0 (level s)); [|lia]..].
  rewrite (unsafe_run_round (Sleeping (level s)) (Writing (level s)) s s) by done.
  rewrite (unsafe_run_round (Writing (level s)) (Done true) s
             (<[STOCK_KEY := level s - 1]> s));
    [|done|simpl; by rewrite insert_insert_eq].
  cbn [fst snd]. rewrite successful_count_resume, fmap_replicate.
  split_and!; [done| |done].
  unfold count. generalize (S n). clear. intros m.
  induction m as [|m IH]; [done|].
  cbn [replicate]. rewrite filter_cons. simpl. by rewrite IH.
Qed.

Lemma purchase_item_unsafe_oversells_any_witness :
  successful_count
    (run_schedule (seq 0 5 ++ seq 0 5 ++ seq 0 5)
       (<[STOCK_KEY := 2]> ∅, replicate 5 purchase_item_unsafe)).2 = 5%nat.
Proof.
  refine (proj1 (proj2 (purchase_item_unsafe_oversells_any 5 (<[STOCK_KEY := 2]> ∅)
                          _ _))); [reflexivity|lia].
Defined.

(** ** Both paths without stock, and one call after the other *)

Lemma step_purchase_item_unsafe (s : store) :
  step purchase_item_unsafe s = (resume (unsafe_step Fresh s).1, s).
Proof.
  change purchase_item_unsafe with (resume Fresh). rewrite step_resume.
  simpl. by destruct (0 <? level s).
Qed.

Section sold_out.
Variable s : store.
Hypothesis sold_out : level s ≤ 0.

Lemma sold_out_step (p : prog bool) :
  idle p → step p s = (Ret false, s).
Proof using sold_out.
  intros [->|[->| ->]]; [| |done].
  - rewrite step_purchase_item_safe. by destruct (Z.ltb_spec 0 (level s)); [lia|].
  - rewrite step_purchase_item_unsafe. simpl.
    by destruct (Z.ltb_spec 0 (level s)); [lia|].
Qed.

Lemma sold_out_run (sched : list nat) (pool : list (prog bool)) :
  Forall idle pool →
  (run_schedule sched (s, pool)).1 = s ∧
  Forall idle (run_schedule sched (s, pool)).2.
Proof using sold_out.
  revert pool. induction sched as [|i sched IH]; intros pool Hpool; [done|].
  rewrite run_schedule_cons. unfold step_task. simpl.
  destruct (pool !! i) as [p|] eqn:Hi; [|by apply IH].
  rewrite sold_out_step by by eapply Forall_lookup.
  apply IH, Forall_insert; [done|]. by right; right.
Qed.

Lemma sold_out_progress (sched : list nat) (pool : list (prog bool)) :
  Forall idle pool →
  (∀ i, (i < length pool)%nat → i ∈ sched) →
  all_finished (run_schedule sched (s, pool)).2 = true.
Proof using sold_out.
  intros Hpool Hfair. apply all_finished_lookup. intros i Hi.
  rewrite run_schedule_length in Hi.
  destruct (list_elem_of_split _ _ (Hfair i Hi)) as (before & after & ->).
  rewrite run_schedule_app, run_schedule_cons.
  apply run_schedule_keeps_finished.
  destruct (sold_out_run before pool Hpool) as [Hstore Hidle].
  destruct (run_schedule before (s, pool)) as [s' pool'] eqn:Hrun.
  simpl in *. subst s'.
  assert (i < length pool')%nat as Hi'.
  { replace pool' with (run_schedule before (s, pool)).2 by by rewrite Hrun.
    by rewrite run_schedule_length. }
  destruct (lookup_lt_is_Some_2 _ _ Hi') as [p Hp].
  unfold step_task. simpl. rewrite Hp, sold_out_step by by eapply Forall_lookup.
  exists (Ret false). split; [by apply list_lookup_insert_eq|done].
Qed.
End sold_out.

(** X4 — without stock nothing is sold, whatever the mix: in a pool of safe
    and unsafe purchases started on a stock that reads 0 or less, under
    every schedule the store stays exactly as it was and no purchase
    succeeds; once each has had a turn, all have returned false. *)
Theorem purchases_without_stock (pool : list (prog bool)) (s : store)
    (sched : list nat) :
  level s ≤ 0 →
  Forall (λ p, p = purchase_item_safe ∨ p = purchase_item_unsafe) pool →
  let cfg := run_schedule sched (s, pool) in
  cfg.1 = s ∧
  successful_count cfg.2 = 0%nat ∧
  ((∀ i, (i < length pool)%nat → i ∈ sched) →
   cfg.2 = replicate (length pool) (Ret false)).
Proof.
  intros Hs Hpool cfg.
  assert (Forall idle pool) as Hidle.
  { eapply Forall_impl; [exact Hpool|]. unfold idle. tauto. }
  destruct (sold_out_run s Hs sched pool Hidle) as [Hstore Hshape]. fold cfg in Hshape.
  split_and!; [done|..].
  - unfold successful_count. induction Hshape as [|p l [->|[->| ->]] _ IH]; try done.
  - intros Hfair.
    pose proof (sold_out_progress s Hs sched pool Hidle Hfair) as Hdone.
    fold cfg in Hdone.
    assert (length cfg.2 = length pool) as <- by apply run_schedule_length.
    unfold all_finished in Hdone.
    induction Hshape as [|p l [->|[->| ->]] _ IH]; try done.
    simpl in Hdone. simpl. f_equal. by apply IH.
Qed.

Lemma purchases_without_stock_witness :
  (run_schedule [2; 0; 1]%nat
     (<[STOCK_KEY := 0]> ∅,
      [purchase_item_safe; purchase_item_unsafe; purchase_item_safe])).2
  = replicate 3 (Ret false).
Proof.
  refine (proj2 (proj2 (purchases_without_stock
            [purchase_item_safe; purchase_item_unsafe; purchase_item_safe]
            (<[STOCK_KEY := 0]> ∅) [2; 0; 1]%nat _ _)) _).
  - vm_compute. discriminate.
  - repeat first [apply Forall_nil_2
                 |apply Forall_cons_2; [first [by left|by right]|]].
  - intros i Hi. destruct i as [|[|[|i]]]; [repeat constructor..|simpl in Hi; lia].
Defined.

Lemma run_times_purchase_item_unsafe (n : nat) (s : store) :
  ∃ s', run [] (times n purchase_item_unsafe) s = (Returned tt, s') ∧
        level s' = if 0 <=? level s then Z.max (level s - Z.of_nat n) 0
                   else level s.
Proof.
  revert s. induction n as [|n IH]; intros s.
  - exists s. split; [done|]. destruct (Z.leb_spec 0 (level s)); lia.
  - rewrite run_times_S, run_purchase_item_unsafe.
    destruct (Z.ltb_spec 0 (level s)) as [Hpos|Hzero].
    + destruct (IH (<[STOCK_KEY := level s - 1]> s)) as (s' & -> & Hs').
      exists s'. split; [done|]. rewrite Hs', level_insert.
      destruct (Z.leb_spec 0 (level s - 1)); destruct (Z.leb_spec 0 (level s)); lia.
    + destruct (IH s) as (s' & -> & Hs').
      exists s'. split; [done|]. rewrite Hs'.
      destruct (Z.leb_spec 0 (level s)); lia.
Qed.

Lemma run_times_purchase_item_safe_negative (n : nat) (s : store) :
  level s < 0 → run [] (times n purchase_item_safe) s = (Returned tt, s).
Proof.
  intros Hs. induction n as [|n IH]; [done|].
  rewrite run_times_S, run_purchase_item_safe.
  by destruct (Z.ltb_spec 0 (level s)); [lia|].
Qed.

(** X5 — a reset to any amount [a] followed by [n] purchases in a row and a
    stock query.  With unsafe purchases, and with safe ones when [a] is
    within the store's 64-bit range, the query returns [a - n], but not less
    than 0, when [a] is not negative, and [a] itself when it is negative (a
    negative stock is never sold from and never repaired).  With safe
    purchases and [a] above that range the first purchase raises the store's
    response error and the stock stays at [a]. *)
Theorem purchases_in_a_row_after_reset (a : Z) (n : nat) (s : store) :
  let expected := if 0 <=? a then Z.max (a - Z.of_nat n) 0 else a in
  (a ≤ INT64_MAX →
   (run [] (reset_stock a;; times n purchase_item_safe;; get_stock) s).1
     = Returned expected) ∧
  (INT64_MAX < a → (0 < n)%nat →
   run [] (reset_stock a;; times n purchase_item_safe;; get_stock) s
     = (Raised (RedisError ResponseError), <[STOCK_KEY := a]> s)) ∧
  (run [] (reset_stock a;; times n purchase_item_unsafe;; get_stock) s).1
    = Returned expected.
Proof.
  intros expected. subst expected. split_and!.
  - intros Hmax. rewrite run_bind_nil, run_reset_stock, run_bind_nil.
    destruct (Z.leb_spec 0 a) as [Ha|Ha].
    + destruct (run_times_purchase_item_safe n (<[STOCK_KEY := a]> s))
        as (s' & -> & Hs'); rewrite level_insert in *; [done..|].
      by rewrite run_get_stock, Hs'.
    + rewrite run_times_purchase_item_safe_negative by by rewrite level_insert.
      by rewrite run_get_stock, level_insert.
  - intros Hmax Hn. destruct n as [|n]; [lia|].
    rewrite run_bind_nil, run_reset_stock, run_bind_nil, run_times_S.
    rewrite run_purchase_item_safe, level_insert.
    destruct (Z.ltb_spec 0 a); [|unfold INT64_MAX in *; lia].
    by destruct (Z.leb_spec a INT64_MAX); [lia|].
  - rewrite run_bind_nil, run_reset_stock, run_bind_nil.
    destruct (run_times_purchase_item_unsafe n (<[STOCK_KEY := a]> s))
      as (s' & -> & Hs').
    rewrite level_insert in Hs'. by rewrite run_get_stock, Hs'.
Qed.

Lemma purchases_in_a_row_after_reset_witness :
  (run [] (reset_stock 3;; times 5 purchase_item_safe;; get_stock) ∅).1
    = Returned 0 ∧
  run [] (reset_stock 9223372036854775808;; times 2 purchase_item_safe;; get_stock) ∅
    = (Raised (RedisError ResponseError), <[STOCK_KEY := 9223372036854775808]> ∅).
Proof.
  split.
  - refine (proj1 (purchases_in_a_row_after_reset 3 5 ∅) _). by vm_compute.
  - refine (proj1 (proj2 (purchases_in_a_row_after_reset 9223372036854775808 2 ∅))
              _ _); [reflexivity|lia].
Defined.

(** X6 — the engine owns one key: whatever the link does, none of its four
    operations changes or removes what the store holds under any other
    key. *)
Theorem engine_touches_only_stock_key (l : link) (s : store) (key : string) :
  key ≠ STOCK_KEY →
  (run l purchase_item_unsafe s).2 !! key = s !! key ∧
  (run l purchase_item_safe s).2 !! key = s !! key ∧
  (∀ amount, (run l (reset_stock amount) s).2 !! key = s !! key) ∧
  (run l get_stock s).2 !! key = s !! key.
Proof.
  intros Hkey. split_and!.
  - rewrite run_link_purchase_item_unsafe.
    destruct (head l) as [[?|]|]; [done|..];
      (destruct (0 <? level s); [|done]);
      destruct (head (tail l)) as [[?|]|]; simpl; try done;
      by rewrite lookup_insert_ne.
  - rewrite run_link_purchase_item_safe, run_purchase_item_safe.
    destruct (head l) as [[?|]|]; [done|..];
      (destruct (0 <? level s); [|done]);
      (destruct (level s <=? INT64_MAX); [|done]);
      simpl; by rewrite lookup_insert_ne.
  - intros amount. destruct l as [|[e|] l]; simpl; try done;
      unfold redis_set; by rewrite lookup_insert_ne.
  - by destruct l as [|[e|] l].
Qed.

Lemma engine_touches_only_stock_key_witness :
  (run [] purchase_item_unsafe
     (<[STOCK_KEY := 3]> (<["session:42"%string := 7]> ∅))).2 !! "session:42"%string
  = (<[STOCK_KEY := 3]> (<["session:42"%string := 7]> ∅) : store) !! "session:42"%string.
Proof.
  refine (proj1 (engine_touches_only_stock_key []
                   (<[STOCK_KEY := 3]> (<["session:42"%string := 7]> ∅))
                   "session:42" _)).
  vm_compute. discriminate.
Defined.

(** X15 — the safe path is only as safe as its neighbours.  Let one unsafe
    purchase read the stock, then one safe purchase run, then the unsafe
    one finish: both succeed and the stock has gone down by one only, from
    any positive stock within the store's 64-bit range.  The atomic script
    does not protect its decrement from being overwritten by the unsafe
    write. *)
Theorem safe_purchase_overwritten_by_unsafe (s : store) :
  0 < level s → level s ≤ INT64_MAX →
  let cfg := run_schedule [0; 1; 0; 0]%nat
               (s, [purchase_item_unsafe; purchase_item_safe]) in
  cfg.2 = [Ret true; Ret true] ∧
  successful_count cfg.2 = 2%nat ∧
  cfg.1 = <[STOCK_KEY := level s - 1]> s.
Proof.
  intros Hs Hmax cfg.
  assert (cfg = (<[STOCK_KEY := level s - 1]> s, [Ret true; Ret true])) as ->;
    [|done].
  subst cfg. rewrite !run_schedule_cons.
  assert (step_task (s, [purchase_item_unsafe; purchase_item_safe]) 0
          = (s, [resume (Sleeping (level s)); purchase_item_safe])) as ->.
  { unfold step_task. cbn [fst snd lookup list_lookup].
    rewrite step_purchase_item_unsafe. cbn [unsafe_step].
    by destruct (Z.ltb_spec 0 (level s)) as [_|]; [|lia]. }
  assert (step_task (s, [resume (Sleeping (level s)); purchase_item_safe]) 1
          = (<[STOCK_KEY := level s - 1]> s,
             [resume (Sleeping (level s)); Ret true])) as ->.
  { unfold step_task. cbn [fst snd lookup list_lookup].
    rewrite step_purchase_item_safe.
    destruct (Z.ltb_spec 0 (level s)) as [_|]; [|lia].
    by destruct (Z.leb_spec (level s) INT64_MAX); [|lia]. }
  unfold step_task. cbn [fst snd lookup list_lookup].
  rewrite (step_resume (Sleeping (level s))). cbn [unsafe_step fst snd].
  cbn [insert list_insert lookup list_lookup].
  rewrite (step_resume (Writing (level s))). cbn [unsafe_step fst snd].
  simpl. by rewrite insert_insert_eq.
Qed.

Lemma safe_purchase_overwritten_by_unsafe_witness :
  (run_schedule [0; 1; 0; 0]%nat
     (<[STOCK_KEY := 1]> ∅, [purchase_item_unsafe; purchase_item_safe])).2
  = [Ret true; Ret true].
Proof.
  refine (proj1 (safe_purchase_overwritten_by_unsafe (<[STOCK_KEY := 1]> ∅) _ _));
    [reflexivity|by vm_compute].
Defined.

(** ** The harness, the report and the unsafe endpoint *)

(** X7 — the sales [run_attack] reports never exceed the attempts made, and
    equal them exactly when every post was answered 200; the order in which
    the answers are gathered does not matter; the stock and the duration are
    passed through untouched. *)
Theorem run_attack_counts_within_attempts {T : Type} (posts : list post_result)
    (current_stock : Z) (duration : T) :
  ((run_attack posts current_stock duration).1.1 ≤ length posts)%nat ∧
  ((run_attack posts current_stock duration).1.1 = length posts ↔
     Forall (λ post, post = Response 200) posts) ∧
  (∀ posts', posts ≡ₚ posts' →
     run_attack posts current_stock duration
     = run_attack posts' current_stock duration) ∧
  (run_attack posts current_stock duration).1.2 = current_stock ∧
  (run_attack posts current_stock duration).2 = duration.
Proof.
  unfold run_attack. simpl. split_and!; try done.
  - etrans; [apply length_filter|]. by rewrite length_fmap.
  - induction posts as [|post posts IH]; [done|].
    rewrite fmap_cons, filter_cons, Forall_cons.
    pose proof (length_filter (λ r, r = 200) (make_purchase <$> posts)) as Hle.
    rewrite length_fmap in Hle.
    destruct post as [status|]; cbn [make_purchase].
    + destruct (decide (status = 200)) as [->|Hne]; simpl.
      * rewrite <- IH. intuition lia.
      * split; [lia|]. by intros [[= ->] _].
    + simpl. split; [lia|]. by intros [[=] _].
  - intros posts' Hperm. do 2 f_equal. by rewrite Hperm.
Qed.












(** A link on which every failed command was lost before it reached the
    store is a link of [run]. *)
Lemma run_faulty_unsent {A : Type} (l : link) (p : prog A) (s : store) :
  run_faulty (map (option_map Unsent) l) p s = run l p s.
Proof.
  revert l s. induction p as [a|e|c k IH]; intros l s; [done..|].
  cbn [run run_faulty].
  destruct (uses_store c).
  - destruct l as [|[e|] l]; cbn [map head tail option_map]; [|done|];
      (destruct (handle c s) as [[x|e'] s']; [|done]).
    + apply (IH x []).
    + apply IH.
  - destruct (handle c s) as [[x|e] s']; [apply IH|done].
Qed.

(** X10 — the other endpoints when round trips to the store fail, before
    the command is sent or after the store has applied it.  The health check
    answers 200 and leaves the store alone.  The stock query and the reset
    make one round trip.  If it fails, both raise the client's error and are
    answered 500; the query leaves the store as it was, but after the reset
    the store holds the old value when the command was lost and the new
    amount when only the reply was lost, under the same answer.  If it goes
    through they answer 200 with the level read, or with the amount now
    stored. *)
Theorem stock_endpoints_under_faults (l : list (option fault)) (s : store)
    (amount : Z) :
  run_faulty l Main.health_check s
    = (Returned {["status"%string := JStr "healthy"]}, s) ∧
  (∀ f, head l = Some (Some f) →
     run_faulty l Main.get_stock s = (Raised (RedisError (fault_error f)), s) ∧
     (run_faulty l (Main.reset_stock amount) s).1
       = Raised (RedisError (fault_error f)) ∧
     http_status (run_faulty l Main.get_stock s).1 = 500 ∧
     http_status (run_faulty l (Main.reset_stock amount) s).1 = 500 ∧
     level (run_faulty l (Main.reset_stock amount) s).2
       = match f with Unsent _ => level s | Unanswered _ => amount end) ∧
  ((∀ f, head l ≠ Some (Some f)) →
     run_faulty l Main.get_stock s
       = (Returned {["current_stock"%string := JInt (level s)]}, s) ∧
     run_faulty l (Main.reset_stock amount) s
       = (Returned {["message"%string := JStr ("Stock reset to " +:+ pretty amount);
                     "new_stock"%string := JInt amount]},
          <[STOCK_KEY := amount]> s)).
Proof.
  split; [done|]. split.
  - intros f Hf. destruct l as [|[f'|] l]; [done| |done].
    injection Hf as ->. destruct f as [e|e]; split_and!; try done.
    cbn. unfold redis_set. by rewrite level_insert.
  - intros Hup. destruct l as [|[f|] l]; [done| |done]. by destruct (Hup f).
Qed.

Lemma stock_endpoints_under_faults_witness :
  (run_faulty [Some (Unanswered TimeoutError)] (Main.reset_stock 7)
     (<[STOCK_KEY := 3]> ∅)).1 = Raised (RedisError TimeoutError) ∧
  (run_faulty [Some (Unsent TimeoutError)] (Main.reset_stock 7)
     (<[STOCK_KEY := 3]> ∅)).1 = Raised (RedisError TimeoutError) ∧
  level (run_faulty [Some (Unanswered TimeoutError)] (Main.reset_stock 7)
           (<[STOCK_KEY := 3]> ∅)).2 = 7 ∧
  level (run_faulty [Some (Unsent TimeoutError)] (Main.reset_stock 7)
           (<[STOCK_KEY := 3]> ∅)).2 = 3.
Proof.
  destruct (proj1 (proj2 (stock_endpoints_under_faults
                            [Some (Unanswered TimeoutError)] (<[STOCK_KEY := 3]> ∅) 7))
              (Unanswered TimeoutError) eq_refl) as (_ & Hraise & _ & _ & Hlevel).
  destruct (proj1 (proj2 (stock_endpoints_under_faults
                            [Some (Unsent TimeoutError)] (<[STOCK_KEY := 3]> ∅) 7))
              (Unsent TimeoutError) eq_refl) as (_ & Hraise' & _ & _ & Hlevel').
  split_and!; [exact Hraise|exact Hraise'|exact Hlevel|exact Hlevel'].
Defined.

(** ** The store client singleton *)

Import Database.

Section client_facts.
Variable int : string → option Z.

Lemma well_formed_fresh : well_formed fresh.
Proof. split; [done|]. intros id c Hid. done. Qed.

Lemma well_formed_get_redis (environ : gmap string string) (w : process) :
  well_formed w → well_formed (get_redis int environ w).2.
Proof.
  intros Hw. unfold get_redis, RedisClient.get_instance.
  destruct (_instance w) as [id|] eqn:Hinst; [done|].
  destruct (match environ !! "REDIS_PORT"%string with
            | Some text => int text
            | None => Some 6379
            end) as [port|]; [|done].
  destruct Hw as [Hrange Hopen]. split; simpl.
  - intros id [= <-]. rewrite length_app. simpl. lia.
  - intros id c Hid. apply lookup_app_Some in Hid as [Hold|[Hlen Hnew]].
    + pose proof (lookup_lt_Some _ _ _ Hold) as Hlt.
      rewrite (Hopen id c Hold), Hinst. split; [done|]. intros [= <-]. lia.
    + apply list_lookup_singleton_Some in Hnew as [Hzero <-]. simpl.
      split; [|done]. intros _. f_equal. lia.
Qed.

Lemma well_formed_close (w : process) :
  well_formed w → well_formed (RedisClient.close w).
Proof.
  intros Hw. unfold RedisClient.close.
  destruct (_instance w) as [id|] eqn:Hinst; [|done].
  destruct Hw as [Hrange Hopen]. split; [done|]. simpl. intros j c Hj. split; [|done]. intros Hc.
  destruct (decide (id = j)) as [->|Hne].
  - rewrite list_lookup_alter_eq in Hj.
    destruct (objects w !! j); simplify_eq/=.
  - rewrite list_lookup_alter_ne in Hj by done.
    apply (Hopen j c Hj) in Hc. congruence.
Qed.

Lemma well_formed_do_calls (calls : list call) (w : process) :
  well_formed w → well_formed (do_calls int calls w).
Proof.
  revert w. induction calls as [|c calls IH]; intros w Hw; [done|].
  apply IH. destruct c; [by apply well_formed_get_redis|by apply well_formed_close].
Qed.

Lemma get_redis_cached (environ : gmap string string) (w : process) (id : nat) :
  _instance w = Some id → get_redis int environ w = (Client id, w).
Proof. unfold get_redis, RedisClient.get_instance. by intros ->. Qed.

Lemma get_redis_caches (environ : gmap string string) (w : process) (id : nat) :
  (get_redis int environ w).1 = Client id →
  _instance (get_redis int environ w).2 = Some id.
Proof.
  unfold get_redis, RedisClient.get_instance.
  destruct (_instance w) as [id'|] eqn:Hinst; [by intros [= <-]|].
  destruct (match environ !! "REDIS_PORT"%string with
            | Some text => int text
            | None => Some 6379
            end) as [port|]; [|done].
  by intros [= <-].
Qed.

(** X11 — the client is a singleton.  A call of [get_instance] that returns
    a client has cached it: every later call returns the same client and
    changes nothing, whatever the environment says by then.  A call that
    fails on the port leaves the process as it was, with nothing cached, so
    that a later call reads the environment again. *)
Theorem get_instance_singleton (environ environ' : gmap string string) (w : process) :
  match RedisClient.get_instance int environ w with
  | (Client id, w') =>
      _instance w' = Some id ∧
      RedisClient.get_instance int environ' w' = (Client id, w')
  | (ValueError, w') =>
      w' = w ∧ _instance w = None ∧
      ∃ text, environ !! "REDIS_PORT"%string = Some text ∧ int text = None
  end.
Proof.
  destruct (RedisClient.get_instance int environ w) as [[id|] w'] eqn:Hget.
  - pose proof (get_redis_caches environ w id) as Hcached.
    unfold get_redis in Hcached. rewrite Hget in Hcached.
    specialize (Hcached eq_refl). split; [done|].
    by apply get_redis_cached.
  - unfold RedisClient.get_instance in Hget.
    destruct (_instance w) as [id|]; [done|].
    destruct (environ !! "REDIS_PORT"%string) as [text|]; [|done].
    destruct (int text) eqn:Htext; [done|].
    injection Hget as <-. eauto.
Qed.

(** X12 — at most one pool is open, and it is the cached one.  After any
    sequence of [get_redis] and [close] calls of a process, the client
    [_instance] refers to exists and is open, every other client ever
    created is closed, and what [get_redis] hands out next is open. *)
Theorem one_open_client (calls : list call) (environ : gmap string string) :
  let w := do_calls int calls fresh in
  (∀ id, _instance w = Some id →
         ∃ c, objects w !! id = Some c ∧ closed c = false) ∧
  (∀ id c, objects w !! id = Some c → closed c = false → _instance w = Some id) ∧
  (∀ id, (get_redis int environ w).1 = Client id →
         ∃ c, objects (get_redis int environ w).2 !! id = Some c ∧ closed c = false).
Proof.
  intros w.
  assert (∀ w, well_formed w → ∀ id, _instance w = Some id →
               ∃ c, objects w !! id = Some c ∧ closed c = false) as Hlive.
  { intros w0 [Hrange Hopen] id Hid.
    destruct (lookup_lt_is_Some_2 _ _ (Hrange id Hid)) as [c Hc].
    exists c. split; [done|]. by apply (Hopen id c Hc). }
  pose proof (well_formed_do_calls calls fresh well_formed_fresh) as Hw.
  fold w in Hw. split_and!.
  - by apply Hlive.
  - intros id c Hc Hopen. by apply (proj2 Hw id c Hc).
  - intros id Hid. apply Hlive; [by apply well_formed_get_redis|].
    by apply get_redis_caches.
Qed.

(** X13 — closing and reopening.  After any sequence of calls, [close]
    leaves no instance and no open client, and closing again changes
    nothing.  A [get_redis] after it creates a client that did not exist
    before, open, for the host the environment names then (localhost when
    it names none) and with a pool of at most 100 connections. *)
Theorem close_then_reopen (calls : list call) (environ : gmap string string) :
  let w := RedisClient.close (do_calls int calls fresh) in
  _instance w = None ∧
  RedisClient.close w = w ∧
  (∀ id c, objects w !! id = Some c → closed c = true) ∧
  (∀ id, (get_redis int environ w).1 = Client id →
     objects w !! id = None ∧
     ∃ c, objects (get_redis int environ w).2 !! id = Some c ∧
          closed c = false ∧
          host (config c) = default "localhost"%string (environ !! "REDIS_HOST"%string) ∧
          max_connections (config c) = 100).
Proof.
  intros w.
  pose proof (well_formed_close _ (well_formed_do_calls calls fresh well_formed_fresh))
    as [Hrange Hopen].
  fold w in Hrange, Hopen.
  assert (_instance w = None) as Hnone.
  { subst w. unfold RedisClient.close.
    by destruct (_instance (do_calls int calls fresh)) eqn:Hinst. }
  split_and!; [done|..].
  - unfold RedisClient.close. by rewrite Hnone.
  - intros id c Hc. destruct (closed c) eqn:Hclosed; [done|].
    apply (Hopen id c Hc) in Hclosed. congruence.
  - intros id. unfold get_redis, RedisClient.get_instance. rewrite Hnone.
    destruct (match environ !! "REDIS_PORT"%string with
              | Some text => int text
              | None => Some 6379
              end) as [port|]; [|done].
    simpl. intros [= <-]. split; [by apply lookup_ge_None_2|].
    eexists. split; [by apply list_lookup_middle|].
    by split_and!.
Qed.
Lemma serve_requests (requests : list (gmap string string))
    (served : list started) (w : process) :
  well_formed w →
  (∀ id, Client id ∈ served → _instance w = Some id) →
  let after :=
    foldl (λ acc environ,
             let '(r, w') := get_redis int environ acc.2 in (acc.1 ++ [r], w'))
          (served, w) requests in
  well_formed after.2 ∧
  (∀ id, Client id ∈ after.1 → _instance after.2 = Some id) ∧
  length after.1 = (length served + length requests)%nat.
Proof.
  revert served w. induction requests as [|environ requests IH];
    intros served w Hw Hserved; simpl.
  { split_and!; [done..|lia]. }
  pose proof (well_formed_get_redis environ w Hw) as Hw'.
  pose proof (get_redis_caches environ w) as Hcaches.
  pose proof (get_redis_cached environ w) as Hcached.
  destruct (get_redis int environ w) as [r w'] eqn:Hget. simpl in *.
  destruct (IH (served ++ [r]) w' Hw') as (Hwf & Hsame & Hlen).
  - intros id [Hin|Hin]%elem_of_app.
    + specialize (Hcached id (Hserved id Hin)). injection Hcached as -> ->.
      by apply Hserved.
    + apply list_elem_of_singleton in Hin as <-. by apply Hcaches.
  - split_and!; [done..|]. rewrite Hlen, length_app. simpl. lia.
Qed.

(** X14 — over the life of the application every request is answered, all
    requests that get a client get the same one, and after shutdown no
    instance is left and every client ever created is closed. *)
Theorem lifespan_shares_one_client (requests : list (gmap string string)) :
  let '(served, w) := Main.lifespan int requests fresh in
  length served = length requests ∧
  (∀ id id', Client id ∈ served → Client id' ∈ served → id = id') ∧
  _instance w = None ∧
  (∀ id c, objects w !! id = Some c → closed c = true).
Proof.
  unfold Main.lifespan.
  destruct (serve_requests requests [] fresh well_formed_fresh)
    as (Hwf & Hsame & Hlen); [by intros id Hin%elem_of_nil|].
  cbv zeta in *.
  destruct (foldl _ ([], fresh) requests) as [served w]. simpl in *.
  pose proof (well_formed_close w Hwf) as [_ Hopen].
  assert (_instance (RedisClient.close w) = None) as Hnone.
  { unfold RedisClient.close. by destruct (_instance w) eqn:Hinst. }
  split_and!; [done| |done|].
  - intros id id' Hid Hid'. apply Hsame in Hid, Hid'. congruence.
  - intros id c Hc. destruct (closed c) eqn:Hclosed; [done|].
    apply (Hopen id c Hc) in Hclosed. congruence.
Qed.
End client_facts.
